(** * Keyword extraction by TF-IDF: a shallow embedding of [main.py]

    The pipeline of [main.py] is embedded function by function, under the
    names the source uses.  Python values are modelled as follows.

    - [str] is a sequence of Unicode code points ([list Z]); literals are
      written as UTF-8 Rocq strings and decoded by [pystr].
    - [int] is [Z]; [len] is the length as a [Z].
    - [dict] is an association list in insertion order (Python dicts
      iterate in insertion order), keys unique.
    - an exception is a value of [exn]; a function that can raise returns
      a [result].
    - [float] is binary64: Rocq's primitive floats, with the division of
      ints, the rounding and the printing of Python defined on them
      ([Binary64], [Binary64_repr]).  The lemmas on scoring and ranking are
      stated over the operations as a class ([PyFloat], [PyRepr]), the
      claims on binary64. *)

From Stdlib Require Import String Ascii DecimalString.
From Stdlib Require Import ZArith List Bool Lia.
From Stdlib Require Import Permutation Sorted QArith Floats.
Import ListNotations.

Open Scope Z_scope.

(** ** Strings *)

Definition char := Z.
Definition str := list char.

Definition byte_val (a : ascii) : Z := Z.of_N (N_of_ascii a).

(** UTF-8 decoding of a byte sequence into code points. *)
Fixpoint utf8_decode (bs : list Z) : str :=
  match bs with
  | [] => []
  | b0 :: r0 =>
    if b0 <? 0x80 then b0 :: utf8_decode r0
    else
      match r0 with
      | [] => []
      | b1 :: r1 =>
        if b0 <? 0xE0 then (b0 mod 32 * 64 + b1 mod 64) :: utf8_decode r1
        else
          match r1 with
          | [] => []
          | b2 :: r2 =>
            if b0 <? 0xF0
            then (b0 mod 16 * 4096 + b1 mod 64 * 64 + b2 mod 64) :: utf8_decode r2
            else
              match r2 with
              | [] => []
              | b3 :: r3 =>
                (b0 mod 8 * 262144 + b1 mod 64 * 4096 + b2 mod 64 * 64 + b3 mod 64)
                  :: utf8_decode r3
              end
          end
      end
  end.

(** A Python string literal. *)
Definition pystr (s : string) : str :=
  utf8_decode (map byte_val (list_ascii_of_string s)).

Definition str_eqb (a b : str) : bool :=
  if list_eq_dec Z.eq_dec a b then true else false.

Definition len {A} (l : list A) : Z := Z.of_nat (length l).

(** [x in l] for a list [l] of strings. *)
Definition in_list (x : str) (l : list str) : bool := existsb (str_eqb x) l.

(** ** Regular expressions

    The patterns of the source are concatenations of one-character classes;
    a pattern is the list of its classes. *)

Definition char_class := char -> bool.
Definition pattern := list char_class.

Definition in_range (lo hi c : Z) : bool := (lo <=? c) && (c <=? hi).

Definition lit (x : char) : char_class := fun c => c =? x.

Definition literal (s : str) : pattern := map lit s.

(** The pattern matched at the very start of [s]: the text after the match. *)
Fixpoint match_prefix (pat : pattern) (s : str) : option str :=
  match pat with
  | [] => Some s
  | p :: pat' =>
    match s with
    | [] => None
    | c :: s' => if p c then match_prefix pat' s' else None
    end
  end.

(** [re.search]: the leftmost match, as the text before it and the text
    after it. *)
Fixpoint re_search (pat : pattern) (s : str) : option (str * str) :=
  match match_prefix pat s with
  | Some rest => Some ([], rest)
  | None =>
    match s with
    | [] => None
    | c :: s' =>
      match re_search pat s' with
      | Some (pre, post) => Some (c :: pre, post)
      | None => None
      end
    end
  end.

(** [re.split] for a pattern that matches no empty string: the pieces between
    the successive leftmost matches.  Each match consumes a character, so
    [length s] rounds are enough ([re_split_fuel_enough]). *)
Fixpoint re_split_fuel (fuel : nat) (pat : pattern) (s : str) : list str :=
  match fuel with
  | O => [s]
  | S fuel' =>
    match re_search pat s with
    | None => [s]
    | Some (pre, post) => pre :: re_split_fuel fuel' pat post
    end
  end.

Definition re_split (pat : pattern) (s : str) : list str :=
  re_split_fuel (length s) pat s.

(** The truth value of a match object or [None]. *)
Definition truthy {A} (m : option A) : bool :=
  match m with
  | Some _ => true
  | None => false
  end.

(** The digits zero of Unicode 14.0, the table of CPython 3.11: the decimal
    digits (category Nd) are each of them and the 9 characters after it. *)
Definition decimal_zeros : list char :=
  [48; 1632; 1776; 1984; 2406; 2534; 2662; 2790;
   2918; 3046; 3174; 3302; 3430; 3558; 3664; 3792;
   3872; 4160; 4240; 6112; 6160; 6470; 6608; 6784;
   6800; 6992; 7088; 7232; 7248; 42528; 43216; 43264;
   43472; 43504; 43600; 44016; 65296; 66720; 68912; 69734;
   69872; 69942; 70096; 70384; 70736; 70864; 71248; 71360;
   71472; 71904; 72016; 72784; 73040; 73120; 92768; 92864;
   93008; 120782; 120792; 120802; 120812; 120822; 123200; 123632;
   125264; 130032].

(** The class of a decimal digit in a pattern on [str]. *)
Definition unicode_decimal : char_class :=
  fun c => existsb (fun zero => in_range zero (zero + 9) c) decimal_zeros.

(** [[a-zA-Zа-яА-Я-]]: the ranges a-z, A-Z, U+0430-U+044F, U+0410-U+042F and
    the hyphen. *)
Definition alpha_hyphen (c : char) : bool :=
  in_range 97 122 c || in_range 65 90 c
  || in_range 0x430 0x44F c || in_range 0x410 0x42F c || (c =? 45).

(** [[^a-zA-Zа-яА-Я-]] *)
Definition not_alpha_hyphen (c : char) : bool := negb (alpha_hyphen c).

(** ** Exceptions *)

Inductive exn : Type :=
| TypeError
| ZeroDivisionError
| KeyError
| IndexError.

Inductive result (A : Type) : Type :=
| Ok (a : A)
| Raise (e : exn).

Arguments Ok {A} a.
Arguments Raise {A} e.

Definition bind {A B} (m : result A) (f : A -> result B) : result B :=
  match m with
  | Ok a => f a
  | Raise e => Raise e
  end.

Notation "x <- m ;; k" := (bind m (fun x => k))
  (at level 61, m at next level, right associativity).

(** A [for] loop whose body updates the loop state and may raise. *)
Fixpoint for_each {A S} (l : list A) (body : A -> S -> result S) (s : S)
  : result S :=
  match l with
  | [] => Ok s
  | x :: l' => s' <- body x s ;; for_each l' body s'
  end.

(** [l[0]] *)
Definition item0 {A} (l : list A) : result A :=
  match l with
  | [] => Raise IndexError
  | x :: _ => Ok x
  end.

(** [l[:stop]] *)
Definition slice_upto {A} (l : list A) (stop : Z) : list A :=
  let stop := if stop <? 0 then Z.max 0 (len l + stop) else stop in
  firstn (Z.to_nat stop) l.

(** [enumerate(l)] *)
Definition enumerate {A} (l : list A) : list (Z * A) :=
  combine (map Z.of_nat (seq 0 (length l))) l.

(** [functools.reduce(f, l)] without an initial value. *)
Definition reduce {A} (f : A -> A -> A) (l : list A) : result A :=
  match l with
  | [] => Raise TypeError
  | x :: l' => Ok (fold_left f l' x)
  end.

(** [str(n)] for an int. *)
Definition str_of_int (n : Z) : str :=
  pystr (DecimalString.NilZero.string_of_int (Z.to_int n)).

Definition nl : str := [10].

(** ** Dictionaries and counters *)

Definition dict (V : Type) := list (str * V).

Definition keys {V} (d : dict V) : list str := map fst d.

Fixpoint dict_get {V} (d : dict V) (k : str) : option V :=
  match d with
  | [] => None
  | (k', v) :: d' => if str_eqb k k' then Some v else dict_get d' k
  end.

(** [k in d] *)
Definition contains {V} (d : dict V) (k : str) : bool := truthy (dict_get d k).

(** [d[k]] *)
Definition getitem {V} (d : dict V) (k : str) : result V :=
  match dict_get d k with
  | Some v => Ok v
  | None => Raise KeyError
  end.

(** [d[k] = v]: a present key keeps its place, a new one goes last. *)
Fixpoint setitem {V} (d : dict V) (k : str) (v : V) : dict V :=
  match d with
  | [] => [(k, v)]
  | (k', v') :: d' =>
    if str_eqb k k' then (k', v) :: d' else (k', v') :: setitem d' k v
  end.

(** [dict(items)] *)
Definition dict_of_items {V} (items : list (str * V)) : dict V :=
  fold_left (fun d kv => setitem d (fst kv) (snd kv)) items [].

(** [c[k]] for a [Counter]: a missing key counts 0. *)
Definition counter_get (c : dict Z) (k : str) : Z :=
  match dict_get c k with
  | Some n => n
  | None => 0
  end.

(** [Counter(l)] *)
Definition Counter (l : list str) : dict Z :=
  fold_left (fun c elem => setitem c elem (counter_get c elem + 1)) l [].

(** ** Floats

    The operations the source applies to floats are a class, so that the
    lemmas on scoring and ranking hold of every arithmetic that has them;
    the floats of Python are its instances [Binary64] and [Binary64_repr]. *)

Class PyFloat (F : Type) : Type := {
  fdiv : Z -> Z -> F;      (* [a / b] for ints [a] and [b <> 0] *)
  fmul : F -> F -> F;      (* [x * y] *)
  fneg : F -> F;           (* [-x] *)
  flt : F -> F -> bool     (* [x < y] *)
}.

Class PyRepr (F : Type) : Type := {
  fround : F -> Z -> F;    (* [round(x, ndigits)] *)
  frepr : F -> str         (* [str(x)] *)
}.

(** [a / b] for ints.  ([OverflowError] takes a quotient of 2 ** 1024 or
    more; the ints divided here are lengths and counts of lists, which are
    below 2 ** 63.) *)
Definition truediv {F} `{PyFloat F} (a b : Z) : result F :=
  if b =? 0 then Raise ZeroDivisionError else Ok (fdiv a b).

(** *** Binary64 *)

(** The float nearest to [num / den], halves to even, with the sign [s]. *)
Definition nearest_float (s : bool) (num den : positive) : float :=
  SF2Prim (SF64div (S754_finite s num 0) (S754_finite false den 0)).

Definition signed_zero (s : bool) : float :=
  if s then PrimFloat.neg_zero else PrimFloat.zero.

(** [a / b] for ints [a] and [b <> 0]: the correctly rounded quotient. *)
Definition int_true_divide (a b : Z) : float :=
  let negate := xorb (a <? 0) (b <? 0) in
  match a, b with
  | 0, _ => signed_zero negate
  | _, 0 => PrimFloat.nan
  | _, _ => nearest_float negate (Z.to_pos (Z.abs a)) (Z.to_pos (Z.abs b))
  end.

#[export] Instance Binary64 : PyFloat float := {
  fdiv := int_true_divide;
  fmul := PrimFloat.mul;
  fneg := PrimFloat.opp;
  flt := PrimFloat.ltb
}.

(** A float that is a number. *)
Definition is_number (x : float) : Prop := PrimFloat.is_nan x = false.

(** The nearest int to a fraction, halves to even. *)
Definition Qround_int (x : Q) : Z :=
  let d := Zpos (Qden x) in
  let floor := Qnum x / d in
  let remainder := Qnum x mod d in
  if 2 * remainder <? d then floor
  else if d <? 2 * remainder then floor + 1
  else if Z.even floor then floor else floor + 1.

Definition Qfloor (x : Q) : Z := Qnum x / Zpos (Qden x).

(** [m * 2 ** e], the absolute value of a finite float. *)
Definition magnitude (m : positive) (e : Z) : Q :=
  if 0 <=? e then inject_Z (Zpos m * 2 ^ e)
  else Qmake (Zpos m) (Z.to_pos (2 ^ (- e))).

(** [q * 10 ** e] *)
Definition scale10 (q : Q) (e : Z) : Q :=
  if 0 <=? e then (q * inject_Z (10 ^ e))%Q else (q / inject_Z (10 ^ (- e)))%Q.

(** The float nearest to the decimal [k * 10 ** e], [k >= 0], with the
    sign [s]. *)
Definition nearest_decimal (s : bool) (k : Z) (e : Z) : float :=
  match k with
  | Zpos p =>
    if 0 <=? e then nearest_float s (p * Z.to_pos (10 ^ e)) 1
    else nearest_float s p (Z.to_pos (10 ^ (- e)))
  | _ => signed_zero s
  end.

(** [round(x, ndigits)] for a float: the exact value of [x] is rounded to
    [ndigits] decimals, halves to even, and the decimal is converted back. *)
Definition float_round (x : float) (ndigits : Z) : float :=
  match Prim2SF x with
  | S754_finite s m e =>
    if 323 <? ndigits then x
    else if ndigits <? -308 then signed_zero s
    else
      nearest_decimal s (Qround_int (scale10 (magnitude m e) ndigits))
        (- ndigits)
  | _ => x
  end.

(** The number of decimal digits of [n > 0]. *)
Definition decimal_digits (n : Z) : Z := len (str_of_int n).

(** The [d] with [10 ** (d - 1) <= q < 10 ** d], for [q > 0]. *)
Definition decimal_point (q : Q) : Z :=
  let guess := decimal_digits (Qnum q) - decimal_digits (Zpos (Qden q)) in
  if Qle_bool (scale10 1 guess) q then guess + 1 else guess.

(** Of the two decimals [k * 10 ** (decpt - n)] next to the float [x] of
    absolute value [q], one that converts to [x], the nearer one first. *)
Definition shortest_try (x : float) (s : bool) (q : Q) (decpt n : Z)
  : option (Z * Z) :=
  let e := decpt - n in
  let scaled := scale10 q (- e) in
  let lo := Qfloor scaled in
  let hi := lo + 1 in
  let near := Qround_int scaled in
  let far := if near =? lo then hi else lo in
  let converts k := PrimFloat.Leibniz.eqb (nearest_decimal s k e) x in
  if converts near then Some (near, e)
  else if converts far then Some (far, e)
  else None.

(** The decimal of the fewest digits, [n] or more, that converts to [x]; 17
    digits always do. *)
Fixpoint shortest_from (fuel : nat) (x : float) (s : bool) (q : Q)
  (decpt n : Z) : Z * Z :=
  match fuel with
  | O => (Qround_int (scale10 q (n - decpt)), decpt - n)
  | S fuel' =>
    match shortest_try x s q decpt n with
    | Some r => r
    | None => shortest_from fuel' x s q decpt (n + 1)
    end
  end.

Fixpoint strip_zeros (l : str) : str :=
  match l with
  | 48 :: l' => strip_zeros l'
  | _ => l
  end.

Definition zeros (n : Z) : str := repeat 48 (Z.to_nat n).

(** [str(x)] for a float: the shortest decimal that converts to [x], with an
    exponent when the decimal point is at -4 or before, or after 16. *)
Definition float_repr (x : float) : str :=
  match Prim2SF x with
  | S754_nan => pystr "nan"
  | S754_infinity s => if s then pystr "-inf" else pystr "inf"
  | S754_zero s => if s then pystr "-0.0" else pystr "0.0"
  | S754_finite s m e =>
    let q := magnitude m e in
    let '(k, e10) := shortest_from 17 x s q (decimal_point q) 1 in
    let all := str_of_int k in
    let digits := rev (strip_zeros (rev all)) in
    let decpt := len all + e10 in
    let n := len digits in
    let body :=
      if (decpt <=? -4) || (16 <? decpt) then
        firstn 1 digits
        ++ (if 1 <? n then pystr "." ++ skipn 1 digits else [])
        ++ pystr "e" ++ (if decpt - 1 <? 0 then pystr "-" else pystr "+")
        ++ (if Z.abs (decpt - 1) <? 10 then pystr "0" else [])
        ++ str_of_int (Z.abs (decpt - 1))
      else if decpt <=? 0 then pystr "0." ++ zeros (- decpt) ++ digits
      else if n <=? decpt then digits ++ zeros (decpt - n) ++ pystr ".0"
      else firstn (Z.to_nat decpt) digits ++ pystr "."
           ++ skipn (Z.to_nat decpt) digits in
    (if s then pystr "-" else []) ++ body
  end.

#[export] Instance Binary64_repr : PyRepr float := {
  fround := float_round;
  frepr := float_repr
}.

(** [sorted(l, key=key)]: a stable sort that compares keys with [<] only;
    here each element is put before the first one whose key is not below
    its own. *)
Fixpoint insert_by {F} `{PyFloat F} {A} (key : A -> F) (x : A) (l : list A)
  : list A :=
  match l with
  | [] => [x]
  | y :: l' =>
    if flt (key y) (key x) then y :: insert_by key x l' else x :: y :: l'
  end.

Definition sorted {F} `{PyFloat F} {A} (key : A -> F) (l : list A) : list A :=
  fold_right (insert_by key) [] l.

(** ** Notions the statements use *)

(** The distinct elements of [l], in the order of their first occurrence. *)
Fixpoint first_seen (l : list str) : list str :=
  match l with
  | [] => []
  | x :: l' => x :: filter (fun y => negb (str_eqb y x)) (first_seen l')
  end.

(** The number of occurrences of [w] in [l]. *)
Definition occurrences (w : str) (l : list str) : Z :=
  len (filter (str_eqb w) l).

(** The number of articles that contain [w] at least once. *)
Definition document_frequency (w : str) (articles : list (list str)) : Z :=
  len (filter (in_list w) articles).

(** The number of positions of [s] at which [pat] matches. *)
Fixpoint count_matches (pat : pattern) (s : str) : nat :=
  (if truthy (match_prefix pat s) then 1 else 0)%nat
  + match s with
    | [] => 0
    | _ :: s' => count_matches pat s'
    end.

(** [pat] matches at no position of [s]. *)
Definition absent (pat : pattern) (s : str) : Prop :=
  forall k, match_prefix pat (skipn k s) = None.

(** The leftmost match of [pat] in [s] has [pre] before it and [post]
    after it. *)
Definition leftmost (pat : pattern) (s pre post : str) : Prop :=
  exists m,
    s = pre ++ m ++ post
    /\ match_prefix pat (m ++ post) = Some post
    /\ forall k, (k < length pre)%nat -> match_prefix pat (skipn k s) = None.

(** The pieces of [s] between the successive leftmost matches of [pat]. *)
Inductive segments (pat : pattern) : str -> list str -> Prop :=
| segments_last s :
    absent pat s -> segments pat s [s]
| segments_cut s pre post rest :
    leftmost pat s pre post -> segments pat post rest ->
    segments pat s (pre :: rest).

(** [t] is [s] cut at the first match of [pat], or all of [s] when [pat]
    matches nowhere in it. *)
Definition truncated (pat : pattern) (s t : str) : Prop :=
  (absent pat s /\ t = s) \/ (exists post, leftmost pat s t post).

(** No two matches of [pat] overlap. *)
Definition self_disjoint (pat : pattern) : Prop :=
  forall s rest k,
    match_prefix pat s = Some rest -> (0 < k < length pat)%nat ->
    match_prefix pat (skipn k s) = None.

(** A letter of the Latin or of the Russian alphabet as the filter knows
    them (a-z, A-Z, U+0430-U+044F, U+0410-U+042F), or a hyphen. *)
Definition letter_or_hyphen (c : char) : Prop :=
  97 <= c <= 122 \/ 65 <= c <= 90
  \/ 0x430 <= c <= 0x44F \/ 0x410 <= c <= 0x42F \/ c = 45.

(** No score of [l] is exceeded by a later one. *)
Definition non_increasing {F} `{PyFloat F} {A} (score : A -> F) (l : list A)
  : Prop :=
  StronglySorted (fun x y => flt (score x) (score y) = false) l.

(** [x] and [y] are tied: neither score is below the other. *)
Definition tied {F} `{PyFloat F} (x y : F) : bool :=
  negb (flt x y) && negb (flt y x).

(** The score of the lemma [w] of [article]: its share of the article's
    lemmas times the number of articles per article that holds it. *)
Definition tf_idf {F} `{PyFloat F} (corpus : list (list str))
  (article : list str) (w : str) : F :=
  fmul (fdiv (occurrences w article) (len article))
    (fdiv (len corpus) (document_frequency w corpus)).

(** The scores of an article's lemmas, in the order the lemmas are first
    met. *)
Definition counted_scores {F} `{PyFloat F} (corpus : list (list str))
  (article : list str) : dict F :=
  map (fun w => (w, tf_idf corpus article w)) (first_seen article).

(** ** The pipeline ([main.py]) *)

Section Pipeline.

(** The collaborators: the Unicode table behind the pattern class for a
    decimal digit and behind [str.lower], and the NLP libraries. *)
Variable is_decimal : char_class.
Variable lower : str -> str.
Variable word_tokenize : str -> list str.
Variable stopwords_russian : list str.
Variable normal_form : str -> str.

Context {F : Type} `{PyFloat F} `{PyRepr F}.

(** The pattern of line 38; the class of a decimal digit is [is_decimal]. *)
Definition start_marker : pattern :=
  literal (pystr "УДК ") ++ [is_decimal; is_decimal; is_decimal; lit 46].

(** The pattern of line 41. *)
Definition end_marker : pattern := literal (pystr "СПИСОК ЛИТЕРАТУРЫ").

(** Lines 36-43. *)
Definition split_text_into_articles (text : str) : result (list str) :=
  let splitted_text := re_split start_marker text in
  for_each (tl splitted_text)
    (fun article articles =>
       article <- item0 (re_split end_marker article) ;;
       Ok (articles ++ [article]))
    [].

(** Lines 54-58. *)
Definition lower_articles (articles : list str) : list str :=
  fold_left
    (fun lowercase_articles article => lowercase_articles ++ [lower article])
    articles [].

(** Lines 61-65. *)
Definition tokenize_articles (articles : list str) : list (list str) :=
  fold_left
    (fun tokenized_articles article =>
       tokenized_articles ++ [word_tokenize article])
    articles [].

(** Lines 80-85. *)
Definition remove_stop_words (words : list str) : list str :=
  fold_left
    (fun filtered_words word =>
       if negb (in_list word stopwords_russian)
       then filtered_words ++ [word] else filtered_words)
    words [].

(** The test of line 92. *)
Definition keeps_word (word : str) : bool :=
  truthy (re_search [alpha_hyphen] word)
  && negb (truthy (re_search [not_alpha_hyphen] word)).

(** Lines 88-94. *)
Definition remove_non_alphabetical_words (words : list str) : list str :=
  fold_left
    (fun filtered_words word =>
       if keeps_word word then filtered_words ++ [word] else filtered_words)
    words [].

(** Lines 68-77. *)
Definition remove_junk_from_articles (articles : list (list str))
  : list (list str) :=
  fold_left
    (fun filtered_articles article =>
       let article := remove_stop_words article in
       let article := remove_non_alphabetical_words article in
       filtered_articles ++ [article])
    articles [].

(** Lines 46-51. *)
Definition articles_preprocessing (articles : list str) : list (list str) :=
  let lowercase_articles := lower_articles articles in
  let tokenized_articles := tokenize_articles lowercase_articles in
  remove_junk_from_articles tokenized_articles.

(** Lines 97-106; [normal_form word] is [morph.parse(word)[0].normal_form]. *)
Definition lemmatize_articles (articles : list (list str)) : list (list str) :=
  fold_left
    (fun lemmatized_articles article =>
       let article_words :=
         fold_left (fun article_words word => article_words ++ [normal_form word])
           article [] in
       lemmatized_articles ++ [article_words])
    articles [].

(** Lines 137-148. *)
Definition count_number_of_articles_with_all_words
  (articles : list (list str)) : result (dict Z) :=
  all_words <- reduce (fun x y => x ++ y) articles ;;
  let word_frequency_in_all_articles := Counter all_words in
  for_each (keys word_frequency_in_all_articles)
    (fun word number_of_articles_with_word =>
       for_each articles
         (fun article number_of_articles_with_word =>
            if in_list word article then
              if contains number_of_articles_with_word word then
                n <- getitem number_of_articles_with_word word ;;
                Ok (setitem number_of_articles_with_word word (n + 1))
              else Ok (setitem number_of_articles_with_word word 1)
            else Ok number_of_articles_with_word)
         number_of_articles_with_word)
    [].

(** Lines 128-134. *)
Definition sort_tf_idfs (tf_idfs : list (dict F)) : list (dict F) :=
  fold_left
    (fun sorted_tf_idfs article =>
       let sorted_article :=
         dict_of_items (sorted (fun x => fneg (snd x)) article) in
       sorted_tf_idfs ++ [sorted_article])
    tf_idfs [].

(** The body of the loop over the words of one article (lines 120-123). *)
Definition score_word (word_frequency number_of_articles_with_word : dict Z)
  (number_of_words number_of_articles : Z)
  (word : str) (article_tf_idfs : dict F) : result (dict F) :=
  tf <- truediv (counter_get word_frequency word) number_of_words ;;
  df <- getitem number_of_articles_with_word word ;;
  idf <- truediv number_of_articles df ;;
  Ok (setitem article_tf_idfs word (fmul tf idf)).

(** Lines 109-125. *)
Definition calculate_tf_idf (lemmatized_articles : list (list str))
  : result (list (dict F)) :=
  number_of_articles_with_word <-
    count_number_of_articles_with_all_words lemmatized_articles ;;
  let number_of_articles := len lemmatized_articles in
  tf_idfs <-
    for_each lemmatized_articles
      (fun article tf_idfs =>
         let word_frequency := Counter article in
         let number_of_words := len article in
         article_tf_idfs <-
           for_each (keys word_frequency)
             (score_word word_frequency number_of_articles_with_word
                number_of_words number_of_articles)
             [] ;;
         Ok (tf_idfs ++ [article_tf_idfs]))
      [] ;;
  Ok (sort_tf_idfs tf_idfs).

(** One line of the report (line 161). *)
Definition term_line (term : str * F) : str :=
  fst term ++ pystr ": " ++ frepr (fround (snd term) 5) ++ nl.

(** The header of the report's block for the article at [index] (line 157). *)
Definition header (index : Z) : str :=
  nl ++ pystr "Article " ++ str_of_int (index + 1) ++ nl.

(** Lines 151-162; [main] passes the limit 20, which is also the default. *)
Definition format_tf_idf (tf_idfs : list (dict F)) (limit : Z) : str :=
  fold_left
    (fun result ia =>
       let index := fst ia in
       let article := snd ia in
       let result := result ++ header index in
       let terms := article in
       let article_limit := if len terms <? limit then len terms else limit in
       fold_left (fun result term => result ++ term_line term)
         (slice_upto terms article_limit) result)
    (enumerate tf_idfs) [].

(** The terms of an article that the report lists (lines 159-160). *)
Definition emitted (limit : Z) (article : dict F) : list (str * F) :=
  let terms := article in
  let article_limit := if len terms <? limit then len terms else limit in
  slice_upto terms article_limit.

(** The report's block for one article: its header and its term lines. *)
Definition block (limit : Z) (ia : Z * dict F) : str :=
  header (fst ia) ++ concat (map term_line (emitted limit (snd ia))).

End Pipeline.

(** [main], from the extracted text on: the report written to [tf_idf.txt]
    (lines 18-23). *)
Definition main {F} `{PyFloat F} `{PyRepr F} (is_decimal : char_class)
  (lower : str -> str) (word_tokenize : str -> list str)
  (stopwords_russian : list str) (normal_form : str -> str) (text : str)
  : result str :=
  articles <- split_text_into_articles is_decimal text ;;
  let articles :=
    articles_preprocessing lower word_tokenize stopwords_russian articles in
  let lemmatized_articles := lemmatize_articles normal_form articles in
  tf_idfs <- calculate_tf_idf lemmatized_articles ;;
  Ok (format_tf_idf tf_idfs 20).


(** The text made of the pieces of [gaps] with those of [articles] between
    them, in turn. *)
Fixpoint interleave (gaps articles : list str) : str :=
  match gaps, articles with
  | [], _ => []
  | g :: _, [] => g
  | g :: gaps', a :: articles' => g ++ a ++ interleave gaps' articles'
  end.

(** * Properties *)

(** ** Loops that append *)

Lemma fold_left_append_map {A B} (f : A -> B) (l : list A) (acc : list B) :
  fold_left (fun acc x => acc ++ [f x]) l acc = acc ++ map f l.
Proof.
  revert acc; induction l as [|x l IH]; intros acc; simpl.
  - now rewrite app_nil_r.
  - rewrite IH, <- app_assoc. reflexivity.
Qed.

Lemma fold_left_append_filter {A} (p : A -> bool) (l acc : list A) :
  fold_left (fun acc x => if p x then acc ++ [x] else acc) l acc
  = acc ++ filter p l.
Proof.
  revert acc; induction l as [|x l IH]; intros acc; simpl.
  - now rewrite app_nil_r.
  - rewrite IH. destruct (p x); [rewrite <- app_assoc|]; reflexivity.
Qed.

Lemma fold_left_append_concat {A} (f : A -> str) (l : list A) (acc : str) :
  fold_left (fun acc x => acc ++ f x) l acc = acc ++ concat (map f l).
Proof.
  revert acc; induction l as [|x l IH]; intros acc; simpl.
  - now rewrite app_nil_r.
  - rewrite IH, <- app_assoc. reflexivity.
Qed.

Lemma for_each_append_map {A B} (f : A -> result B) (g : A -> B) (l : list A) :
  (forall x, In x l -> f x = Ok (g x)) ->
  forall acc,
    for_each l (fun x acc => y <- f x ;; Ok (acc ++ [y])) acc
    = Ok (acc ++ map g l).
Proof.
  induction l as [|x l IH]; intros Hf acc; simpl.
  - now rewrite app_nil_r.
  - rewrite (Hf x) by now left. simpl.
    rewrite IH by (intros; apply Hf; now right).
    rewrite <- app_assoc. reflexivity.
Qed.

(** ** Strings *)

Lemma str_eqb_eq (a b : str) : str_eqb a b = true <-> a = b.
Proof.
  unfold str_eqb. destruct (list_eq_dec Z.eq_dec a b); split; congruence.
Qed.

Lemma str_eqb_neq (a b : str) : str_eqb a b = false <-> a <> b.
Proof.
  unfold str_eqb. destruct (list_eq_dec Z.eq_dec a b); split; congruence.
Qed.

Lemma str_eqb_refl (a : str) : str_eqb a a = true.
Proof. now apply str_eqb_eq. Qed.

Lemma str_eqb_sym (a b : str) : str_eqb a b = str_eqb b a.
Proof.
  destruct (str_eqb b a) eqn:E.
  - apply str_eqb_eq in E. subst. apply str_eqb_refl.
  - apply str_eqb_neq in E. apply str_eqb_neq. congruence.
Qed.

Lemma in_list_In (x : str) (l : list str) : in_list x l = true <-> In x l.
Proof.
  unfold in_list. rewrite existsb_exists. split.
  - intros (y & Hy & E). apply str_eqb_eq in E. now subst.
  - intros Hx. exists x. split; [assumption | apply str_eqb_refl].
Qed.

(** ** The alphabetic filter *)

Lemma re_search_class (cls : char_class) (w : str) :
  truthy (re_search [cls] w) = existsb cls w.
Proof.
  induction w as [|c w IH]; simpl; [reflexivity|].
  destruct (cls c); simpl; [reflexivity|].
  rewrite <- IH. destruct (re_search [cls] w) as [[pre post]|]; reflexivity.
Qed.

Lemma alpha_hyphen_spec (c : char) :
  alpha_hyphen c = true <-> letter_or_hyphen c.
Proof.
  unfold alpha_hyphen, letter_or_hyphen, in_range.
  rewrite !orb_true_iff, !andb_true_iff, !Z.leb_le, Z.eqb_eq. tauto.
Qed.

Lemma keeps_word_forallb (w : str) :
  keeps_word w = existsb alpha_hyphen w && forallb alpha_hyphen w.
Proof.
  unfold keeps_word. rewrite !re_search_class. f_equal.
  unfold not_alpha_hyphen.
  induction w as [|c w IH]; simpl; [reflexivity|].
  rewrite negb_orb, negb_involutive, IH. reflexivity.
Qed.

Lemma keeps_word_spec (w : str) :
  keeps_word w = true <->
  (exists c, In c w /\ letter_or_hyphen c)
  /\ (forall c, In c w -> letter_or_hyphen c).
Proof.
  rewrite keeps_word_forallb, andb_true_iff, existsb_exists, forallb_forall.
  split; intros [(c & Hc & Ha) Hall]; split.
  - exists c. now rewrite <- alpha_hyphen_spec.
  - intros x Hx. now apply alpha_hyphen_spec, Hall.
  - exists c. now rewrite alpha_hyphen_spec.
  - intros x Hx. now apply alpha_hyphen_spec, Hall.
Qed.

Lemma remove_non_alphabetical_words_filter (words : list str) :
  remove_non_alphabetical_words words = filter keeps_word words.
Proof. exact (fold_left_append_filter keeps_word words []). Qed.

Lemma remove_stop_words_filter (stopwords : list str) (words : list str) :
  remove_stop_words stopwords words
  = filter (fun w => negb (in_list w stopwords)) words.
Proof.
  exact (fold_left_append_filter (fun w => negb (in_list w stopwords)) words []).
Qed.

Lemma remove_junk_from_articles_map (stopwords : list str)
  (articles : list (list str)) :
  remove_junk_from_articles stopwords articles
  = map (fun a => remove_non_alphabetical_words (remove_stop_words stopwords a))
      articles.
Proof.
  exact (fold_left_append_map
           (fun a => remove_non_alphabetical_words (remove_stop_words stopwords a))
           articles []).
Qed.

Lemma lemmatize_articles_map (normal_form : str -> str)
  (articles : list (list str)) :
  lemmatize_articles normal_form articles = map (map normal_form) articles.
Proof.
  unfold lemmatize_articles.
  rewrite (fold_left_append_map
             (fun a => fold_left (fun ws w => ws ++ [normal_form w]) a [])).
  simpl. apply map_ext. intros a.
  exact (fold_left_append_map normal_form a []).
Qed.

(** C8: the filter keeps a token exactly when it has a letter of one of the
    two alphabets or a hyphen and no other character; it keeps the surviving
    tokens in their order, as often as they occur; the six tokens of the
    specification are rejected and accepted as it says. *)
Theorem alphabetic_filter :
  (forall word,
      keeps_word word = true <->
      (exists c, In c word /\ letter_or_hyphen c)
      /\ (forall c, In c word -> letter_or_hyphen c))
  /\ (forall words,
         remove_non_alphabetical_words words = filter keeps_word words)
  /\ map keeps_word (map pystr ["abc123"; "123"; "!!"]%string)
     = [false; false; false]
  /\ map keeps_word (map pystr ["co-op"; "слово"; "word"]%string)
     = [true; true; true].
Proof.
  split; [exact keeps_word_spec|].
  split; [exact remove_non_alphabetical_words_filter|].
  split; reflexivity.
Qed.

(** C10: a token with the letter U+0451 or U+0401 is rejected, since the
    class holds the four ranges and the hyphen only; no such token is among
    the words handed to the lemmatizer. *)
Theorem yo_rejected (lower : str -> str) (word_tokenize : str -> list str)
  (stopwords_russian : list str) (word : str) :
  In 0x451 word \/ In 0x401 word ->
  keeps_word word = false
  /\ (forall c, alpha_hyphen c = true <-> letter_or_hyphen c)
  /\ (forall words, ~ In word (remove_non_alphabetical_words words))
  /\ (forall articles article,
         In article
           (articles_preprocessing lower word_tokenize stopwords_russian articles) ->
         ~ In word article).
Proof.
  intros Hyo.
  assert (Hrej : keeps_word word = false).
  { destruct (keeps_word word) eqn:E; [|reflexivity].
    apply keeps_word_spec in E. destruct E as [_ Hall].
    destruct Hyo as [Hc|Hc]; apply Hall in Hc;
      unfold letter_or_hyphen in Hc; lia. }
  assert (Hout : forall words, ~ In word (remove_non_alphabetical_words words)).
  { intros words Hin. rewrite remove_non_alphabetical_words_filter in Hin.
    apply filter_In in Hin. destruct Hin as [_ Hk]. congruence. }
  repeat split; try assumption; try apply alpha_hyphen_spec.
  intros articles article Hin.
  unfold articles_preprocessing in Hin.
  rewrite remove_junk_from_articles_map in Hin.
  apply in_map_iff in Hin. destruct Hin as (a & <- & _). apply Hout.
Qed.

Lemma yo_rejected_witness :
  keeps_word (pystr "ещё") = false
  /\ ~ In (pystr "ещё")
       (remove_non_alphabetical_words (map pystr ["ещё"; "раз"]%string)).
Proof.
  pose proof (yo_rejected (fun s => s) (fun s => [s]) [] (pystr "ещё")) as H.
  destruct H as (H1 & _ & H2 & _).
  - left. vm_compute. tauto.
  - split; [exact H1 | apply H2].
Defined.

(** ** Splitting on a pattern *)

Lemma match_prefix_split (pat : pattern) (s rest : str) :
  match_prefix pat s = Some rest ->
  exists m, s = m ++ rest /\ length m = length pat.
Proof.
  revert s; induction pat as [|p pat IH]; intros s Hm; simpl in Hm.
  - exists []. split; [simpl; congruence | reflexivity].
  - destruct s as [|c s]; [discriminate|].
    destruct (p c); [|discriminate].
    destruct (IH _ Hm) as (m & -> & Hl).
    exists (c :: m). split; simpl; congruence.
Qed.

Lemma match_prefix_nil (pat : pattern) :
  pat <> [] -> match_prefix pat [] = None.
Proof. destruct pat; [congruence | reflexivity]. Qed.

Lemma absent_nil (pat : pattern) : pat <> [] -> absent pat [].
Proof.
  intros Hp k. rewrite skipn_nil. now apply match_prefix_nil.
Qed.

Lemma re_search_leftmost (pat : pattern) (s pre post : str) :
  re_search pat s = Some (pre, post) -> leftmost pat s pre post.
Proof.
  revert pre post; induction s as [|c s IH]; intros pre post Hs; simpl in Hs.
  - destruct (match_prefix pat []) as [rest|] eqn:Hm; [|discriminate].
    injection Hs as <- <-.
    destruct (match_prefix_split _ _ _ Hm) as (m & E & _).
    exists m. simpl. rewrite <- E. repeat split; auto. simpl; lia.
  - destruct (match_prefix pat (c :: s)) as [rest|] eqn:Hm.
    + injection Hs as <- <-.
      destruct (match_prefix_split _ _ _ Hm) as (m & E & _).
      exists m. simpl. rewrite <- E. repeat split; auto. simpl; lia.
    + destruct (re_search pat s) as [[pre' post']|] eqn:Hr; [|discriminate].
      injection Hs as <- <-.
      destruct (IH _ _ eq_refl) as (m & E & Hmatch & Hbefore).
      exists m. repeat split.
      * simpl. now rewrite <- E.
      * assumption.
      * intros [|k] Hk; simpl; [assumption|].
        apply Hbefore. simpl in Hk. lia.
Qed.

Lemma re_search_absent (pat : pattern) (s : str) :
  re_search pat s = None -> absent pat s.
Proof.
  induction s as [|c s IH]; intros Hs k; simpl in Hs.
  - rewrite skipn_nil. now destruct (match_prefix pat []).
  - destruct (match_prefix pat (c :: s)) eqn:Hm; [discriminate|].
    destruct k as [|k]; simpl; [assumption|].
    apply IH. now destruct (re_search pat s) as [[? ?]|].
Qed.

Lemma leftmost_shorter (pat : pattern) (s pre post : str) :
  pat <> [] -> leftmost pat s pre post -> (length post < length s)%nat.
Proof.
  intros Hp (m & -> & Hm & _).
  destruct (match_prefix_split _ _ _ Hm) as (m' & E & Hl).
  apply app_inv_tail in E. subst m'.
  rewrite !length_app.
  destruct pat; [congruence|]. simpl in Hl. lia.
Qed.

Lemma re_split_fuel_segments (pat : pattern) :
  pat <> [] ->
  forall fuel s, (length s <= fuel)%nat ->
    segments pat s (re_split_fuel fuel pat s).
Proof.
  intros Hp; induction fuel as [|fuel IH]; intros s Hl; simpl.
  - destruct s; [|simpl in Hl; lia].
    apply segments_last. now apply absent_nil.
  - destruct (re_search pat s) as [[pre post]|] eqn:Hs.
    + pose proof (re_search_leftmost _ _ _ _ Hs) as Hlm.
      apply segments_cut with post; [assumption|].
      apply IH. pose proof (leftmost_shorter _ _ _ _ Hp Hlm). lia.
    + apply segments_last. now apply re_search_absent.
Qed.

Lemma re_split_segments (pat : pattern) (s : str) :
  pat <> [] -> segments pat s (re_split pat s).
Proof. intros Hp. now apply re_split_fuel_segments. Qed.

Lemma skipn_length_app {A} (a b : list A) : skipn (length a) (a ++ b) = b.
Proof. induction a; simpl; auto. Qed.

Lemma leftmost_not_absent (pat : pattern) (s pre post : str) :
  leftmost pat s pre post -> absent pat s -> False.
Proof.
  intros (m & -> & Hm & _) Ha.
  specialize (Ha (length pre)). rewrite skipn_length_app in Ha. congruence.
Qed.

Lemma leftmost_functional (pat : pattern) (s pre post pre' post' : str) :
  leftmost pat s pre post -> leftmost pat s pre' post' ->
  pre = pre' /\ post = post'.
Proof.
  intros (m & E & Hm & Hb) (m' & E' & Hm' & Hb').
  assert (Hlen : length pre = length pre').
  { destruct (Nat.lt_trichotomy (length pre) (length pre')) as [Hlt|[Heq|Hgt]].
    - apply Hb' in Hlt. rewrite E, skipn_length_app in Hlt. congruence.
    - assumption.
    - apply Hb in Hgt. rewrite E', skipn_length_app in Hgt. congruence. }
  assert (Hpre : pre = pre').
  { apply (f_equal (firstn (length pre))) in E.
    rewrite firstn_app, Nat.sub_diag, firstn_all in E. simpl in E.
    rewrite app_nil_r in E.
    apply (f_equal (firstn (length pre'))) in E'.
    rewrite firstn_app, Nat.sub_diag, firstn_all in E'. simpl in E'.
    rewrite app_nil_r in E'. rewrite Hlen in E. congruence. }
  split; [assumption|]. subst pre'.
  rewrite E in E'. apply app_inv_head in E'. rewrite E' in Hm. congruence.
Qed.

Lemma segments_functional (pat : pattern) (s : str) (l l' : list str) :
  segments pat s l -> segments pat s l' -> l = l'.
Proof.
  intros H; revert l'; induction H as [s Ha | s pre post rest Hlm Hrest IH];
    intros l' H'; inversion H' as [s0 Ha' | s0 pre' post' rest' Hlm' Hrest']; subst.
  - reflexivity.
  - exfalso. eapply leftmost_not_absent; eassumption.
  - exfalso. eapply leftmost_not_absent; eassumption.
  - destruct (leftmost_functional _ _ _ _ _ _ Hlm Hlm') as [<- <-].
    f_equal. now apply IH.
Qed.

(** More rounds than [length s] change nothing. *)
Lemma re_split_fuel_enough (pat : pattern) (s : str) (fuel : nat) :
  pat <> [] -> (length s <= fuel)%nat ->
  re_split_fuel fuel pat s = re_split pat s.
Proof.
  intros Hp Hl. apply segments_functional with pat s.
  - now apply re_split_fuel_segments.
  - now apply re_split_segments.
Qed.

Lemma absent_tail (pat : pattern) (c : char) (s : str) :
  absent pat (c :: s) -> absent pat s.
Proof. intros Ha k. exact (Ha (S k)). Qed.

Lemma count_matches_skip (pat : pattern) (n : nat) (s : str) :
  (forall k, (k < n)%nat -> match_prefix pat (skipn k s) = None) ->
  count_matches pat s = count_matches pat (skipn n s).
Proof.
  revert s; induction n as [|n IH]; intros s Hb; [reflexivity|].
  destruct s as [|c s]; [reflexivity|].
  simpl skipn. rewrite <- IH.
  - pose proof (Hb 0%nat ltac:(lia)) as H0. simpl in H0.
    simpl. rewrite H0. reflexivity.
  - intros k Hk. apply (Hb (S k)). lia.
Qed.

Lemma count_matches_absent (pat : pattern) (s : str) :
  absent pat s -> count_matches pat s = 0%nat.
Proof.
  intros Ha. rewrite (count_matches_skip pat (length s) s).
  - rewrite skipn_all. simpl. specialize (Ha (length s)).
    rewrite skipn_all in Ha. now rewrite Ha.
  - intros k _. apply Ha.
Qed.

Lemma count_matches_leftmost (pat : pattern) (s pre post : str) :
  self_disjoint pat -> pat <> [] -> leftmost pat s pre post ->
  count_matches pat s = S (count_matches pat post).
Proof.
  intros Hd Hp (m & -> & Hm & Hb).
  rewrite (count_matches_skip pat (length pre)) by assumption.
  rewrite skipn_length_app.
  destruct (match_prefix_split _ _ _ Hm) as (m' & E & Hl).
  apply app_inv_tail in E. subst m'.
  destruct m as [|c m]; [destruct pat; [congruence | discriminate]|].
  simpl app. simpl count_matches. simpl app in Hm. rewrite Hm. simpl.
  f_equal.
  rewrite (count_matches_skip pat (length m)).
  - now rewrite skipn_length_app.
  - intros k Hk.
    apply (Hd (c :: m ++ post) post (S k) Hm). simpl in Hl. lia.
Qed.

Lemma count_matches_segments (pat : pattern) (s : str) (l : list str) :
  self_disjoint pat -> pat <> [] -> segments pat s l ->
  length l = S (count_matches pat s).
Proof.
  intros Hd Hp H; induction H as [s Ha | s pre post rest Hlm Hrest IH]; simpl.
  - now rewrite count_matches_absent.
  - rewrite IH. now rewrite (count_matches_leftmost pat s pre post).
Qed.

(** ** The two markers *)

Lemma start_marker_classes (is_decimal : char_class) :
  start_marker is_decimal
  = [lit 0x423; lit 0x414; lit 0x41A; lit 32;
     is_decimal; is_decimal; is_decimal; lit 46].
Proof. reflexivity. Qed.

Lemma start_marker_not_nil (is_decimal : char_class) :
  start_marker is_decimal <> [].
Proof. rewrite start_marker_classes. discriminate. Qed.

Lemma end_marker_not_nil : end_marker <> [].
Proof. discriminate. Qed.

Ltac split_conditions H :=
  repeat match type of H with
         | context [if ?b then _ else _] =>
           let E := fresh "E" in destruct b eqn:E; [|discriminate H]
         end.

(** A match of the start marker begins with U+0423, which no later
    character of the match is: the letters and the dot differ from it, and it
    is no decimal digit. *)
Lemma start_marker_self_disjoint (is_decimal : char_class) :
  is_decimal 0x423 = false -> self_disjoint (start_marker is_decimal).
Proof.
  intros Hy s rest k Hm Hk. rewrite start_marker_classes in *.
  simpl length in Hk.
  destruct (match_prefix_split _ _ _ Hm) as (m & -> & Hl).
  do 8 (destruct m as [|? m]; [discriminate Hl|]).
  destruct m; [|discriminate Hl]. clear Hl.
  simpl in Hm. unfold lit in Hm. split_conditions Hm.
  repeat match goal with
         | E : (_ =? _) = true |- _ => apply Z.eqb_eq in E; subst
         end.
  assert (Hd : forall c tl, is_decimal c = true ->
            match_prefix
              [lit 0x423; lit 0x414; lit 0x41A; lit 32;
               is_decimal; is_decimal; is_decimal; lit 46] (c :: tl) = None).
  { intros c tl Hc. simpl. unfold lit at 1.
    destruct (Z.eqb_spec c 0x423) as [->|_]; [congruence | reflexivity]. }
  destruct k as [|k]; [lia|].
  do 7 (destruct k as [|k]; [first [reflexivity | now apply Hd]|]).
  lia.
Qed.

Lemma item0_re_split (pat : pattern) (s : str) :
  pat <> [] ->
  exists t, item0 (re_split pat s) = Ok t /\ truncated pat s t.
Proof.
  intros Hp. pose proof (re_split_segments pat s Hp) as Hseg.
  inversion Hseg as [s0 Ha | s0 pre post rest Hlm Hrest]; subst; simpl.
  - exists s. split; [reflexivity | now left].
  - exists pre. split; [reflexivity | right; now exists post].
Qed.

Lemma for_each_append_Forall2 {A B} (f : A -> result B) (R : A -> B -> Prop)
  (l : list A) :
  (forall x, exists y, f x = Ok y /\ R x y) ->
  forall acc, exists ys,
    for_each l (fun x acc => y <- f x ;; Ok (acc ++ [y])) acc = Ok (acc ++ ys)
    /\ Forall2 R l ys.
Proof.
  intros Hf; induction l as [|x l IH]; intros acc; simpl.
  - exists []. rewrite app_nil_r. split; constructor.
  - destruct (Hf x) as (y & -> & Hy). simpl.
    destruct (IH (acc ++ [y])) as (ys & -> & Hys).
    exists (y :: ys). rewrite <- app_assoc. split; [reflexivity|].
    now constructor.
Qed.

Lemma split_example (is_decimal : char_class) :
  (forall c, 48 <= c <= 57 -> is_decimal c = true) ->
  split_text_into_articles is_decimal
    (pystr "noise УДК 004.foo СПИСОК ЛИТЕРАТУРЫ bar УДК 005.baz")
  = Ok [pystr "foo "; pystr "baz"].
Proof.
  intros Hd.
  assert (H0 : is_decimal 48 = true) by (apply Hd; lia).
  assert (H4 : is_decimal 52 = true) by (apply Hd; lia).
  assert (H5 : is_decimal 53 = true) by (apply Hd; lia).
  unfold split_text_into_articles. rewrite start_marker_classes.
  set (t := pystr _). vm_compute in t. subst t.
  unfold re_split at 1. simpl length.
  do 8 (cbn -[end_marker re_split]; rewrite ?H0, ?H4, ?H5).
  vm_compute. reflexivity.
Qed.

(** C4, amended: the text is cut at every match of the start marker, the
    piece before the first match is dropped, each later piece is cut at its
    first end marker or kept whole without one, and there are as many
    articles as positions at which the start marker matches; the text of the
    specification yields the two articles "foo " and "baz", the second with
    no leading space. *)
Theorem segmentation (is_decimal : char_class) (text : str) :
  is_decimal 0x423 = false ->
  exists preamble bodies articles,
    segments (start_marker is_decimal) text (preamble :: bodies)
    /\ split_text_into_articles is_decimal text = Ok articles
    /\ Forall2 (truncated end_marker) bodies articles
    /\ length articles = count_matches (start_marker is_decimal) text
    /\ ((forall c, 48 <= c <= 57 -> is_decimal c = true) ->
        split_text_into_articles is_decimal
          (pystr "noise УДК 004.foo СПИСОК ЛИТЕРАТУРЫ bar УДК 005.baz")
        = Ok [pystr "foo "; pystr "baz"]).
Proof.
  intros Hy.
  pose proof (re_split_segments _ text (start_marker_not_nil is_decimal)) as Hseg.
  pose proof (count_matches_segments _ _ _
                (start_marker_self_disjoint _ Hy)
                (start_marker_not_nil is_decimal) Hseg) as Hcount.
  unfold split_text_into_articles at 1.
  destruct (re_split (start_marker is_decimal) text) as [|preamble bodies];
    [discriminate Hcount|].
  destruct (for_each_append_Forall2
              (fun a => item0 (re_split end_marker a)) (truncated end_marker)
              bodies (fun a => item0_re_split _ a end_marker_not_nil) [])
    as (articles & Hrun & Hcut).
  exists preamble, bodies, articles. simpl tl.
  split; [assumption|]. split; [exact Hrun|]. split; [assumption|].
  split.
  - apply Forall2_length in Hcut. simpl in Hcount. lia.
  - apply split_example.
Qed.

Lemma segmentation_witness :
  exists articles,
    split_text_into_articles unicode_decimal (pystr "a УДК 123.b УДК 456.c")
    = Ok articles
    /\ length articles = 2%nat
    /\ split_text_into_articles unicode_decimal
         (pystr "noise УДК 004.foo СПИСОК ЛИТЕРАТУРЫ bar УДК 005.baz")
       = Ok [pystr "foo "; pystr "baz"].
Proof.
  destruct (segmentation unicode_decimal (pystr "a УДК 123.b УДК 456.c") eq_refl)
    as (preamble & bodies & articles & _ & Hrun & _ & Hcount & Hex).
  exists articles. split; [exact Hrun|]. split; [exact Hcount|].
  apply Hex. intros c Hc. unfold unicode_decimal, decimal_zeros.
  cbn [existsb]. apply orb_true_iff. left. unfold in_range.
  apply andb_true_iff. split; apply Z.leb_le; simpl; lia.
Defined.

(** C4 as the specification has it fails: the second article of its text is
    "baz", the marker takes the dot and nothing is left before the "b". *)
Lemma segmentation_counterexample :
  split_text_into_articles unicode_decimal
    (pystr "noise УДК 004.foo СПИСОК ЛИТЕРАТУРЫ bar УДК 005.baz")
  <> Ok [pystr "foo "; pystr " baz"].
Proof. vm_compute. discriminate. Qed.

(** ** Dictionaries *)

Lemma dict_get_None {V} (d : dict V) (k : str) :
  dict_get d k = None <-> ~ In k (keys d).
Proof.
  induction d as [|[k' v] d IH]; simpl.
  - tauto.
  - destruct (str_eqb k k') eqn:E.
    + apply str_eqb_eq in E. subst. split; [discriminate | tauto].
    + apply str_eqb_neq in E. rewrite IH. intuition congruence.
Qed.

Lemma contains_In {V} (d : dict V) (k : str) :
  contains d k = true <-> In k (keys d).
Proof.
  unfold contains. pose proof (dict_get_None d k) as H.
  destruct (dict_get d k); simpl.
  - split; [intros _|reflexivity].
    destruct (in_dec (list_eq_dec Z.eq_dec) k (keys d)) as [Hin|Hn];
      [assumption|]. apply H in Hn. discriminate.
  - split; [discriminate|]. intros Hin. exfalso. now apply H.
Qed.

Lemma contains_false {V} (d : dict V) (k : str) :
  contains d k = false <-> ~ In k (keys d).
Proof.
  rewrite <- contains_In. destruct (contains d k); split; congruence.
Qed.

Lemma setitem_absent {V} (d : dict V) (k : str) (v : V) :
  ~ In k (keys d) -> setitem d k v = d ++ [(k, v)].
Proof.
  induction d as [|[k' v'] d IH]; simpl; intros Hn; [reflexivity|].
  destruct (str_eqb k k') eqn:E.
  - apply str_eqb_eq in E. subst. tauto.
  - rewrite IH by tauto. reflexivity.
Qed.

Lemma setitem_setitem {V} (d : dict V) (k : str) (v v' : V) :
  setitem (setitem d k v) k v' = setitem d k v'.
Proof.
  induction d as [|[k' w] d IH]; simpl.
  - now rewrite str_eqb_refl.
  - destruct (str_eqb k k') eqn:E; simpl; rewrite E; [reflexivity|].
    now rewrite IH.
Qed.

Lemma dict_get_setitem_eq {V} (d : dict V) (k : str) (v : V) :
  dict_get (setitem d k v) k = Some v.
Proof.
  induction d as [|[k' w] d IH]; simpl.
  - now rewrite str_eqb_refl.
  - destruct (str_eqb k k') eqn:E; simpl; rewrite E; [reflexivity | assumption].
Qed.

Lemma dict_get_setitem_neq {V} (d : dict V) (k k' : str) (v : V) :
  k <> k' -> dict_get (setitem d k v) k' = dict_get d k'.
Proof.
  intros Hne. induction d as [|[k0 w] d IH]; simpl.
  - apply not_eq_sym, str_eqb_neq in Hne. now rewrite Hne.
  - destruct (str_eqb k k0) eqn:E; simpl.
    + apply str_eqb_eq in E. subst k0.
      apply not_eq_sym, str_eqb_neq in Hne. now rewrite Hne.
    + now rewrite IH.
Qed.

Lemma keys_setitem {V} (d : dict V) (k : str) (v : V) :
  keys (setitem d k v) = if contains d k then keys d else keys d ++ [k].
Proof.
  destruct (contains d k) eqn:E.
  - apply contains_In in E.
    induction d as [|[k' w] d IH]; simpl in *; [tauto|].
    destruct (str_eqb k k') eqn:E'; simpl; [reflexivity|].
    apply str_eqb_neq in E'. f_equal. apply IH.
    destruct E; [congruence | assumption].
  - apply contains_false in E. rewrite setitem_absent by assumption.
    unfold keys. now rewrite map_app.
Qed.

Lemma contains_setitem {V} (d : dict V) (k k' : str) (v : V) :
  contains (setitem d k v) k' = contains d k' || str_eqb k' k.
Proof.
  unfold contains. destruct (str_eqb k' k) eqn:E.
  - apply str_eqb_eq in E. subst. rewrite dict_get_setitem_eq.
    now rewrite orb_true_r.
  - apply str_eqb_neq in E. rewrite dict_get_setitem_neq by congruence.
    now rewrite orb_false_r.
Qed.

Lemma dict_get_map (f : str -> Z) (l : list str) (w : str) :
  In w l -> dict_get (map (fun x => (x, f x)) l) w = Some (f w).
Proof.
  induction l as [|x l IH]; simpl; [tauto|]. intros Hin.
  destruct (str_eqb w x) eqn:E.
  - apply str_eqb_eq in E. now subst.
  - apply str_eqb_neq in E. apply IH. destruct Hin; congruence.
Qed.

Lemma dict_get_In {V} (d : dict V) (k : str) (v : V) :
  NoDup (keys d) -> In (k, v) d -> dict_get d k = Some v.
Proof.
  induction d as [|[k' v'] d IH]; simpl; [tauto|]. intros Hnd Hin.
  inversion Hnd as [|? ? Hk Hnd']; subst.
  destruct Hin as [E|Hin].
  - injection E as -> ->. now rewrite str_eqb_refl.
  - destruct (str_eqb k k') eqn:E.
    + apply str_eqb_eq in E. subst. exfalso. apply Hk.
      unfold keys. apply in_map_iff. now exists (k', v).
    + now apply IH.
Qed.

Lemma dict_of_items_fold {V} (items d : dict V) :
  NoDup (keys d ++ keys items) ->
  fold_left (fun d kv => setitem d (fst kv) (snd kv)) items d = d ++ items.
Proof.
  revert d; induction items as [|[k v] items IH]; intros d Hnd; simpl.
  - now rewrite app_nil_r.
  - simpl in Hnd.
    assert (Hk : ~ In k (keys d)).
    { intros Hin. apply NoDup_remove_2 in Hnd. apply Hnd.
      apply in_or_app. now left. }
    rewrite setitem_absent by assumption.
    rewrite IH.
    + now rewrite <- app_assoc.
    + unfold keys in *. rewrite map_app. simpl. rewrite <- app_assoc. exact Hnd.
Qed.

Lemma dict_of_items_NoDup {V} (items : dict V) :
  NoDup (keys items) -> dict_of_items items = items.
Proof. intros Hnd. exact (dict_of_items_fold items [] Hnd). Qed.

(** ** Counting *)

Lemma filter_filter {A} (f g : A -> bool) (l : list A) :
  filter f (filter g l) = filter (fun x => g x && f x) l.
Proof.
  induction l as [|x l IH]; simpl; [reflexivity|].
  destruct (g x); simpl; [destruct (f x)|]; now rewrite IH.
Qed.

Lemma filter_true {A} (f : A -> bool) (l : list A) :
  (forall x, In x l -> f x = true) -> filter f l = l.
Proof.
  induction l as [|x l IH]; simpl; intros Hf; [reflexivity|].
  rewrite (Hf x) by now left. f_equal. apply IH. intros; apply Hf; now right.
Qed.

Lemma first_seen_In (l : list str) (w : str) : In w (first_seen l) <-> In w l.
Proof.
  induction l as [|x l IH]; simpl; [tauto|].
  rewrite filter_In, IH, negb_true_iff, str_eqb_neq.
  destruct (list_eq_dec Z.eq_dec x w); intuition congruence.
Qed.

Lemma NoDup_filter {A} (f : A -> bool) (l : list A) :
  NoDup l -> NoDup (filter f l).
Proof.
  induction 1 as [|x l Hx Hnd IH]; simpl; [constructor|].
  destruct (f x); [constructor|]; auto.
  rewrite filter_In. tauto.
Qed.

Lemma first_seen_NoDup (l : list str) : NoDup (first_seen l).
Proof.
  induction l as [|x l IH]; simpl; constructor.
  - rewrite filter_In, str_eqb_refl. simpl. intros [_ H]. discriminate.
  - now apply NoDup_filter.
Qed.

Lemma first_seen_distinct (l : list str) : NoDup l -> first_seen l = l.
Proof.
  induction 1 as [|x l Hx Hnd IH]; simpl; [reflexivity|].
  rewrite IH. f_equal. apply filter_true. intros y Hy.
  apply negb_true_iff, str_eqb_neq. congruence.
Qed.

Lemma occurrences_cons (w x : str) (l : list str) :
  occurrences w (x :: l) = (if str_eqb w x then 1 else 0) + occurrences w l.
Proof.
  unfold occurrences, len. simpl. destruct (str_eqb w x); simpl length; lia.
Qed.

Lemma occurrences_distinct (w : str) (l : list str) :
  NoDup l -> In w l -> occurrences w l = 1.
Proof.
  induction 1 as [|x l Hx Hnd IH]; simpl; [tauto|].
  intros Hin. rewrite occurrences_cons.
  destruct (str_eqb w x) eqn:E.
  - apply str_eqb_eq in E. subst x.
    assert (occurrences w l = 0); [|lia].
    unfold occurrences, len.
    replace (filter (str_eqb w) l) with (@nil str); [reflexivity|].
    symmetry. clear -Hx. induction l as [|y l IH]; simpl; [reflexivity|].
    destruct (str_eqb w y) eqn:E.
    + apply str_eqb_eq in E. subst. simpl in Hx. tauto.
    + apply IH. simpl in Hx. tauto.
  - apply str_eqb_neq in E. rewrite IH; [lia|]. destruct Hin; congruence.
Qed.

Lemma counter_get_setitem (c : dict Z) (k k' : str) (n : Z) :
  counter_get (setitem c k n) k'
  = if str_eqb k' k then n else counter_get c k'.
Proof.
  unfold counter_get. destruct (str_eqb k' k) eqn:E.
  - apply str_eqb_eq in E. subst. now rewrite dict_get_setitem_eq.
  - apply str_eqb_neq in E. now rewrite dict_get_setitem_neq by congruence.
Qed.

Lemma Counter_fold_get (l : list str) (c : dict Z) (w : str) :
  counter_get
    (fold_left (fun c elem => setitem c elem (counter_get c elem + 1)) l c) w
  = counter_get c w + occurrences w l.
Proof.
  revert c; induction l as [|x l IH]; intros c; simpl.
  - unfold occurrences, len. simpl. lia.
  - rewrite IH, counter_get_setitem, occurrences_cons.
    destruct (str_eqb w x) eqn:E; [|lia].
    apply str_eqb_eq in E. subst. lia.
Qed.

Lemma Counter_fold_keys (l : list str) (c : dict Z) :
  keys (fold_left (fun c elem => setitem c elem (counter_get c elem + 1)) l c)
  = keys c ++ filter (fun y => negb (contains c y)) (first_seen l).
Proof.
  revert c; induction l as [|x l IH]; intros c; simpl.
  - now rewrite app_nil_r.
  - rewrite IH, keys_setitem, filter_filter.
    assert (E : filter (fun y => negb (contains
                  (setitem c x (counter_get c x + 1)) y)) (first_seen l)
                = filter (fun y => negb (str_eqb y x) && negb (contains c y))
                    (first_seen l)).
    { apply filter_ext. intros y. rewrite contains_setitem, negb_orb.
      apply andb_comm. }
    rewrite E. destruct (contains c x); simpl; [reflexivity|].
    now rewrite <- app_assoc.
Qed.

Lemma Counter_get (l : list str) (w : str) :
  counter_get (Counter l) w = occurrences w l.
Proof. unfold Counter. now rewrite Counter_fold_get. Qed.

Lemma Counter_keys (l : list str) : keys (Counter l) = first_seen l.
Proof.
  unfold Counter. rewrite Counter_fold_keys. simpl.
  apply filter_true. reflexivity.
Qed.

(** ** The document-frequency table *)

Lemma document_frequency_cons (w : str) (a : list str)
  (articles : list (list str)) :
  document_frequency w (a :: articles)
  = (if in_list w a then 1 else 0) + document_frequency w articles.
Proof.
  unfold document_frequency, len. simpl.
  destruct (in_list w a); simpl length; lia.
Qed.

Lemma document_frequency_nonneg (w : str) (articles : list (list str)) :
  0 <= document_frequency w articles.
Proof. unfold document_frequency, len. lia. Qed.

Lemma document_frequency_pos (w : str) (a : list str)
  (articles : list (list str)) :
  In a articles -> In w a -> 1 <= document_frequency w articles.
Proof.
  intros Ha Hw. induction articles as [|b articles IH]; [destruct Ha|].
  rewrite document_frequency_cons.
  pose proof (document_frequency_nonneg w articles).
  destruct Ha as [->|Ha].
  - apply in_list_In in Hw. rewrite Hw. lia.
  - specialize (IH Ha). destruct (in_list w b); lia.
Qed.

Lemma reduce_concat (articles : list (list str)) :
  articles <> [] -> reduce (fun x y => x ++ y) articles = Ok (concat articles).
Proof.
  destruct articles as [|a articles]; [congruence|]. intros _. simpl. f_equal.
  revert a; induction articles as [|b articles IH]; intros a; simpl.
  - now rewrite app_nil_r.
  - rewrite IH. now rewrite app_assoc.
Qed.

(** The loop over the articles for one word (lines 142-147): the word's
    entry grows by the number of articles that hold it. *)
Lemma count_articles_with_word (w : str) (articles : list (list str))
  (d : dict Z) :
  for_each articles
    (fun article number_of_articles_with_word =>
       if in_list w article then
         if contains number_of_articles_with_word w then
           n <- getitem number_of_articles_with_word w ;;
           Ok (setitem number_of_articles_with_word w (n + 1))
         else Ok (setitem number_of_articles_with_word w 1)
       else Ok number_of_articles_with_word)
    d
  = Ok (if document_frequency w articles =? 0 then d
        else setitem d w (counter_get d w + document_frequency w articles)).
Proof.
  revert d; induction articles as [|a articles IH]; intros d; [reflexivity|].
  simpl for_each. rewrite document_frequency_cons.
  pose proof (document_frequency_nonneg w articles) as Hnn.
  destruct (in_list w a).
  - assert (Hstep : (if contains d w
                     then n <- getitem d w ;; Ok (setitem d w (n + 1))
                     else Ok (setitem d w 1))
                    = Ok (setitem d w (counter_get d w + 1))).
    { unfold contains, getitem, counter_get.
      destruct (dict_get d w); reflexivity. }
    rewrite Hstep. simpl bind. rewrite IH.
    destruct (Z.eqb_spec (1 + document_frequency w articles) 0) as [|_]; [lia|].
    rewrite counter_get_setitem, str_eqb_refl, setitem_setitem.
    destruct (Z.eqb_spec (document_frequency w articles) 0) as [->|_];
      do 2 f_equal; lia.
  - simpl bind. rewrite IH. reflexivity.
Qed.

Lemma count_all_words (articles : list (list str)) (ws : list str) :
  NoDup ws ->
  (forall w, In w ws -> 1 <= document_frequency w articles) ->
  forall d,
    (forall w, In w ws -> ~ In w (keys d)) ->
    for_each ws
      (fun word number_of_articles_with_word =>
         for_each articles
           (fun article number_of_articles_with_word =>
              if in_list word article then
                if contains number_of_articles_with_word word then
                  n <- getitem number_of_articles_with_word word ;;
                  Ok (setitem number_of_articles_with_word word (n + 1))
                else Ok (setitem number_of_articles_with_word word 1)
              else Ok number_of_articles_with_word)
           number_of_articles_with_word)
      d
    = Ok (d ++ map (fun w => (w, document_frequency w articles)) ws).
Proof.
  induction 1 as [|w ws Hw Hnd IH]; intros Hpos d Hfresh; simpl.
  - now rewrite app_nil_r.
  - rewrite count_articles_with_word.
    pose proof (Hpos w (or_introl eq_refl)) as Hdf.
    destruct (Z.eqb_spec (document_frequency w articles) 0) as [|_]; [lia|].
    simpl bind.
    assert (Hk : ~ In w (keys d)) by (apply Hfresh; now left).
    assert (Hc : counter_get d w = 0).
    { unfold counter_get. apply dict_get_None in Hk. now rewrite Hk. }
    rewrite Hc, setitem_absent by assumption. simpl Z.add.
    rewrite IH.
    + now rewrite <- app_assoc.
    + intros; apply Hpos; now right.
    + intros x Hx. unfold keys. rewrite map_app, in_app_iff. simpl.
      intros [Hin|[->|[]]]; [|contradiction].
      revert Hin. apply Hfresh. now right.
Qed.

Lemma document_frequency_table (articles : list (list str)) :
  articles <> [] ->
  count_number_of_articles_with_all_words articles
  = Ok (map (fun w => (w, document_frequency w articles))
          (first_seen (concat articles))).
Proof.
  intros Hne. unfold count_number_of_articles_with_all_words.
  rewrite reduce_concat by assumption. simpl bind.
  rewrite Counter_keys.
  apply (count_all_words articles (first_seen (concat articles))).
  - apply first_seen_NoDup.
  - intros w Hw. apply first_seen_In, in_concat in Hw.
    destruct Hw as (a & Ha & Hw). now apply document_frequency_pos with a.
  - intros w _ [].
Qed.

(** C3: the table gives every lemma of the corpus the number of articles
    that hold it, however often an article repeats it, and has no other
    key; a lemma in 3 of 10 articles, repeated in two of them, gets 3. *)
Theorem document_frequency_counts_presence :
  (forall (articles : list (list str)) (article : list str) (w : str),
      In article articles -> In w article ->
      exists table,
        count_number_of_articles_with_all_words articles = Ok table
        /\ dict_get table w = Some (len (filter (in_list w) articles))
        /\ keys table = first_seen (concat articles))
  /\ (let a := pystr "a" in
      let b := pystr "b" in
      exists table,
        count_number_of_articles_with_all_words
          [[a; a; a]; [b]; [b; a; b; a]; [b]; [b]; [b]; [a]; [b]; [b]; [b]]
        = Ok table
        /\ dict_get table a = Some 3).
Proof.
  split.
  - intros articles article w Ha Hw.
    assert (Hne : articles <> []) by (destruct articles; [destruct Ha | discriminate]).
    eexists. split; [now apply document_frequency_table|]. split.
    + apply (dict_get_map (fun w => document_frequency w articles)).
      apply first_seen_In, in_concat. now exists article.
    + unfold keys. rewrite map_map. simpl. apply map_id.
  - eexists. split; reflexivity.
Qed.

Lemma document_frequency_counts_presence_witness :
  exists table,
    count_number_of_articles_with_all_words
      [[pystr "x"; pystr "x"]; [pystr "y"]; [pystr "y"; pystr "x"]]
    = Ok table
    /\ dict_get table (pystr "x") = Some 2.
Proof.
  destruct (proj1 document_frequency_counts_presence
              [[pystr "x"; pystr "x"]; [pystr "y"]; [pystr "y"; pystr "x"]]
              [pystr "x"; pystr "x"] (pystr "x"))
    as (table & Hrun & Hget & _).
  - simpl. tauto.
  - simpl. tauto.
  - exists table. split; [exact Hrun | exact Hget].
Defined.

(** ** Sorting: what needs no law of the order *)

Section Sorting.

Context {F : Type} `{PyFloat F} {A : Type}.
Variable key : A -> F.

Lemma insert_by_Permutation (x : A) (l : list A) :
  Permutation (x :: l) (insert_by key x l).
Proof.
  induction l as [|y l IH]; simpl; [reflexivity|].
  destruct (flt (key y) (key x)); [|reflexivity].
  rewrite perm_swap. now constructor.
Qed.

Lemma sorted_Permutation (l : list A) : Permutation l (sorted key l).
Proof.
  induction l as [|x l IH]; simpl; [constructor|].
  rewrite <- insert_by_Permutation. now constructor.
Qed.

Lemma insert_by_filter_out (P : A -> bool) (x : A) (l : list A) :
  P x = false -> filter P (insert_by key x l) = filter P l.
Proof.
  intros Hx. induction l as [|y l IH]; simpl.
  - now rewrite Hx.
  - destruct (flt (key y) (key x)); simpl.
    + now rewrite IH.
    + now rewrite Hx.
Qed.

Lemma insert_by_filter_in (P : A -> bool) (x : A) (l : list A) :
  P x = true ->
  (forall y, flt (key y) (key x) = true -> P y = false) ->
  filter P (insert_by key x l) = x :: filter P l.
Proof.
  intros Hx Hlt. induction l as [|y l IH]; simpl.
  - now rewrite Hx.
  - destruct (flt (key y) (key x)) eqn:E; simpl.
    + rewrite (Hlt y E). assumption.
    + now rewrite Hx.
Qed.

End Sorting.

Lemma sort_tf_idfs_map {F} `{PyFloat F} (tf_idfs : list (dict F)) :
  sort_tf_idfs tf_idfs
  = map (fun d => dict_of_items (sorted (fun x => fneg (snd x)) d)) tf_idfs.
Proof.
  exact (fold_left_append_map
           (fun d => dict_of_items (sorted (fun x => fneg (snd x)) d))
           tf_idfs []).
Qed.

Lemma sorted_keys_NoDup {F} `{PyFloat F} (key : str * F -> F) (d : dict F) :
  NoDup (keys d) -> NoDup (keys (sorted key d)).
Proof.
  intros Hnd. unfold keys.
  eapply Permutation_NoDup; [|exact Hnd].
  apply Permutation_map, sorted_Permutation.
Qed.

Lemma sort_tf_idfs_sorted {F} `{PyFloat F} (tf_idfs : list (dict F)) :
  Forall (fun d => NoDup (keys d)) tf_idfs ->
  sort_tf_idfs tf_idfs = map (sorted (fun x => fneg (snd x))) tf_idfs.
Proof.
  intros Hnd. rewrite sort_tf_idfs_map. apply map_ext_in. intros d Hd.
  apply dict_of_items_NoDup, sorted_keys_NoDup.
  rewrite Forall_forall in Hnd. now apply Hnd.
Qed.

(** ** Scoring *)

Lemma len_zero {A} (l : list A) : len l = 0 -> l = [].
Proof. destruct l; [reflexivity|]. unfold len. simpl length. lia. Qed.

Lemma counted_scores_keys {F} `{PyFloat F} (corpus : list (list str))
  (article : list str) :
  keys (counted_scores corpus article) = first_seen article.
Proof. unfold keys, counted_scores. rewrite map_map. apply map_id. Qed.

(** The loop over the words of one article (lines 120-123) raises nothing:
    the article of a counted word is not empty, and the word is in the table
    with a positive count. *)
Lemma score_words {F} `{PyFloat F} (corpus : list (list str))
  (article : list str) (ws : list str) :
  In article corpus ->
  NoDup ws ->
  (forall w, In w ws -> In w article) ->
  forall acc,
    (forall w, In w ws -> ~ In w (keys acc)) ->
    for_each ws
      (score_word (Counter article)
         (map (fun w => (w, document_frequency w corpus))
            (first_seen (concat corpus)))
         (len article) (len corpus))
      acc
    = Ok (acc ++ map (fun w => (w, tf_idf corpus article w)) ws).
Proof.
  intros Ha Hnd; induction Hnd as [|w ws Hw Hnd IH]; intros Hin acc Hfresh; simpl.
  - now rewrite app_nil_r.
  - assert (Hwa : In w article) by (apply Hin; now left).
    unfold score_word at 1. unfold truediv.
    destruct (Z.eqb_spec (len article) 0) as [E|_].
    { apply len_zero in E. subst. destruct Hwa. }
    simpl bind. unfold getitem.
    rewrite (dict_get_map (fun w => document_frequency w corpus))
      by (apply first_seen_In, in_concat; now exists article).
    simpl bind.
    pose proof (document_frequency_pos w article corpus Ha Hwa) as Hdf.
    destruct (Z.eqb_spec (document_frequency w corpus) 0) as [|_]; [lia|].
    simpl bind. rewrite Counter_get.
    rewrite setitem_absent by (apply Hfresh; now left).
    rewrite IH.
    + now rewrite <- app_assoc.
    + intros; apply Hin; now right.
    + intros x Hx. unfold keys. rewrite map_app, in_app_iff. simpl.
      intros [Hk|[->|[]]]; [|contradiction].
      revert Hk. apply Hfresh. now right.
Qed.

(** What [calculate_tf_idf] returns for a corpus with an article: for every
    article, its counted scores, ranked. *)
Lemma calculate_tf_idf_ranked {F} `{PyFloat F} (corpus : list (list str)) :
  corpus <> [] ->
  calculate_tf_idf corpus
  = Ok (map (fun article =>
               sorted (fun x => fneg (snd x)) (counted_scores corpus article))
          corpus).
Proof.
  intros Hne. unfold calculate_tf_idf.
  rewrite document_frequency_table by assumption. simpl bind. cbv zeta.
  rewrite (for_each_append_map
             (fun article =>
                for_each (keys (Counter article))
                  (score_word (Counter article)
                     (map (fun w => (w, document_frequency w corpus))
                        (first_seen (concat corpus)))
                     (len article) (len corpus)) [])
             (counted_scores corpus)).
  - simpl bind. rewrite sort_tf_idfs_sorted.
    + now rewrite map_map.
    + apply Forall_forall. intros d Hd. apply in_map_iff in Hd.
      destruct Hd as (a & <- & _). rewrite counted_scores_keys.
      apply first_seen_NoDup.
  - intros article Ha. rewrite Counter_keys.
    refine (score_words corpus article (first_seen article) Ha
              (first_seen_NoDup _) _ [] _).
    + intros w. apply first_seen_In.
    + intros w _ [].
Qed.

Lemma nth_error_In_corpus {A} (l : list A) (i : nat) (x : A) :
  nth_error l i = Some x -> In x l /\ l <> [].
Proof.
  intros Hn. split; [now apply nth_error_In with i|].
  destruct l; [destruct i; discriminate | discriminate].
Qed.

Lemma re_search_no_match (pat : pattern) (s : str) :
  count_matches pat s = 0%nat -> re_search pat s = None.
Proof.
  induction s as [|c s IH]; simpl; intros Hc.
  - destruct (match_prefix pat []); [discriminate | reflexivity].
  - destruct (match_prefix pat (c :: s)); [discriminate|].
    simpl in Hc. now rewrite IH.
Qed.

(** ** The report *)

Lemma fold_left_append_pointwise {A} (g : str -> A -> str) (f : A -> str)
  (l : list A) :
  (forall acc x, g acc x = acc ++ f x) ->
  forall acc, fold_left g l acc = acc ++ concat (map f l).
Proof.
  intros Hg; induction l as [|x l IH]; intros acc; simpl.
  - now rewrite app_nil_r.
  - rewrite IH, Hg, <- app_assoc. reflexivity.
Qed.

Lemma format_tf_idf_blocks {F} `{PyRepr F} (tf_idfs : list (dict F))
  (limit : Z) :
  format_tf_idf tf_idfs limit = concat (map (block limit) (enumerate tf_idfs)).
Proof.
  unfold format_tf_idf.
  refine (fold_left_append_pointwise _ (block limit) _ _ []).
  intros acc ia. cbv zeta. rewrite fold_left_append_concat.
  unfold block, emitted. now rewrite app_assoc.
Qed.

Lemma nth_error_enumerate_from {A} (l : list A) (s i : nat) (x : A) :
  nth_error l i = Some x ->
  nth_error (combine (map Z.of_nat (seq s (length l))) l) i
  = Some (Z.of_nat (s + i), x).
Proof.
  revert s i; induction l as [|y l IH]; intros s i Hi.
  - destruct i; discriminate.
  - destruct i as [|i]; simpl in *.
    + injection Hi as ->. now rewrite Nat.add_0_r.
    + rewrite (IH (S s) i Hi). do 3 f_equal. lia.
Qed.

Lemma nth_error_enumerate {A} (l : list A) (i : nat) (x : A) :
  nth_error l i = Some x ->
  nth_error (enumerate l) i = Some (Z.of_nat i, x).
Proof. apply (nth_error_enumerate_from l 0 i x). Qed.

Lemma nth_error_firstn_skipn {A} (l : list A) (i : nat) (x : A) :
  nth_error l i = Some x -> l = firstn i l ++ x :: skipn (S i) l.
Proof.
  revert i; induction l as [|y l IH]; intros i Hi.
  - destruct i; discriminate.
  - destruct i as [|i]; simpl in *.
    + now injection Hi as ->.
    + f_equal. now apply IH.
Qed.

Lemma emitted_nil {F} (limit : Z) : emitted limit (@nil (str * F)) = [].
Proof. unfold emitted, slice_upto. apply firstn_nil. Qed.

Lemma emitted_firstn {F} (limit : Z) (article : dict F) :
  0 <= limit -> emitted limit article = firstn (Z.to_nat limit) article.
Proof.
  intros Hl. unfold emitted, slice_upto, len.
  destruct (Z.ltb_spec (Z.of_nat (length article)) limit) as [Hlt|Hge].
  - destruct (Z.ltb_spec (Z.of_nat (length article)) 0) as [|_]; [lia|].
    rewrite Nat2Z.id, firstn_all, firstn_all2 by lia. reflexivity.
  - destruct (Z.ltb_spec limit 0) as [|_]; [lia | reflexivity].
Qed.

Lemma blocks_numbered {F} `{PyRepr F} (limit : Z) (tf_idfs : list (dict F))
  (s : nat) :
  map (block limit) (combine (map Z.of_nat (seq s (length tf_idfs))) tf_idfs)
  = map (fun nd =>
           nl ++ pystr "Article " ++ str_of_int (Z.of_nat (fst nd)) ++ nl
           ++ concat (map term_line (emitted limit (snd nd))))
      (combine (seq (S s) (length tf_idfs)) tf_idfs).
Proof.
  revert s; induction tf_idfs as [|d tf_idfs IH]; intros s; simpl; [reflexivity|].
  rewrite IH. f_equal. unfold block, header. simpl fst. simpl snd.
  replace (Z.of_nat s + 1) with (Z.of_nat (S s)) by lia.
  now rewrite <- !app_assoc.
Qed.

Lemma StronglySorted_firstn_skipn {A} (R : A -> A -> Prop) (l : list A) :
  StronglySorted R l ->
  forall k x y, In x (firstn k l) -> In y (skipn k l) -> R x y.
Proof.
  induction 1 as [|a l Hs IH Ha]; intros k x y Hx Hy.
  - rewrite firstn_nil in Hx. destruct Hx.
  - destruct k as [|k]; simpl in *; [destruct Hx|].
    destruct Hx as [<-|Hx].
    + rewrite Forall_forall in Ha. apply Ha.
      rewrite <- (firstn_skipn k l). apply in_or_app. now right.
    + now apply IH with k.
Qed.

(** ** Ranking *)

Section Ranking.

Context {F : Type} `{PyFloat F}.

(** Among the scores that are numbers the order is a strict weak order, and
    negation reverses it. *)
Variable number : F -> Prop.
Hypothesis flt_asym : forall x y, flt x y = true -> flt y x = false.
Hypothesis flt_negtrans :
  forall x y z,
    number y -> flt x y = false -> flt y z = false -> flt x z = false.
Hypothesis fneg_flt : forall x y, flt (fneg x) (fneg y) = flt y x.

Context {A : Type}.
Variable score : A -> F.

Lemma insert_by_non_increasing (x : A) (l : list A) :
  Forall (fun e => number (score e)) l ->
  non_increasing score l ->
  non_increasing score (insert_by (fun e => fneg (score e)) x l).
Proof.
  unfold non_increasing. intros Hnum Hs. revert Hnum.
  induction Hs as [|y l Hs IH Hy]; intros Hnum; simpl.
  - constructor; constructor.
  - inversion Hnum as [|? ? Hny Hnl]; subst.
    rewrite fneg_flt. destruct (flt (score x) (score y)) eqn:E.
    + constructor; [now apply IH|].
      eapply Permutation_Forall; [apply insert_by_Permutation|].
      constructor; [now apply flt_asym | assumption].
    + constructor; [now constructor|].
      constructor; [assumption|].
      eapply Forall_impl; [|exact Hy]. intros z Hz. simpl in Hz.
      now apply flt_negtrans with (score y).
Qed.

Lemma sorted_non_increasing (l : list A) :
  Forall (fun e => number (score e)) l ->
  non_increasing score (sorted (fun e => fneg (score e)) l).
Proof.
  induction 1 as [|x l Hx Hl IH]; simpl; [constructor|].
  apply insert_by_non_increasing; [|assumption].
  eapply Permutation_Forall; [apply sorted_Permutation | assumption].
Qed.

Lemma tied_not_below (x y s : F) :
  number s -> flt x y = true -> tied x s = true -> tied y s = false.
Proof.
  unfold tied. intros Hs Hxy Hx.
  apply andb_true_iff in Hx. destruct Hx as [Hxs Hsx].
  apply negb_true_iff in Hxs, Hsx.
  destruct (flt y s) eqn:Hys; [reflexivity|].
  destruct (flt s y) eqn:Hsy; [reflexivity|].
  rewrite (flt_negtrans x s y Hs Hxs Hsy) in Hxy. discriminate.
Qed.

Lemma sorted_stable (s : F) (l : list A) :
  number s ->
  filter (fun e => tied (score e) s) (sorted (fun e => fneg (score e)) l)
  = filter (fun e => tied (score e) s) l.
Proof.
  intros Hs. induction l as [|x l IH]; simpl; [reflexivity|].
  destruct (tied (score x) s) eqn:Hx.
  - rewrite insert_by_filter_in; [now rewrite IH | assumption |].
    intros y Hy. rewrite fneg_flt in Hy.
    now apply tied_not_below with (score x).
  - rewrite insert_by_filter_out by assumption. apply IH.
Qed.

End Ranking.

(** ** Binary64 satisfies the laws *)

Ltac compare_cases :=
  repeat match goal with
         | |- context [Z.compare ?a ?b] => destruct (Z.compare_spec a b)
         | |- context [Pos.compare_cont Eq ?a ?b] =>
           change (Pos.compare_cont Eq a b) with (Pos.compare a b);
           destruct (Pos.compare_spec a b)
         end.

Ltac by_comparison :=
  simpl; try discriminate; try reflexivity;
  compare_cases; simpl; try discriminate; try reflexivity; try lia.

Lemma SFltb_asym (x y : spec_float) : SFltb x y = true -> SFltb y x = false.
Proof.
  unfold SFltb.
  destruct x as [sx|sx| |sx mx ex], y as [sy|sy| |sy my ey]; simpl;
    try destruct sx; try destruct sy; by_comparison.
Qed.

Lemma SFltb_negtrans (x y z : spec_float) :
  y <> S754_nan ->
  SFltb x y = false -> SFltb y z = false -> SFltb x z = false.
Proof.
  unfold SFltb. intros Hy.
  destruct y as [sy|sy| |sy my ey]; [| |congruence|]; clear Hy;
    destruct x as [sx|sx| |sx mx ex], z as [sz|sz| |sz mz ez]; simpl;
    try destruct sx; try destruct sy; try destruct sz; by_comparison.
Qed.

Lemma SFltb_opp (x y : spec_float) : SFltb (SFopp x) (SFopp y) = SFltb y x.
Proof.
  unfold SFltb.
  destruct x as [sx|sx| |sx mx ex], y as [sy|sy| |sy my ey]; simpl;
    try destruct sx; try destruct sy; by_comparison.
Qed.

Lemma is_number_not_nan (x : float) : is_number x -> Prim2SF x <> S754_nan.
Proof.
  unfold is_number, Prim2SF. intros ->.
  destruct (is_zero x); [discriminate|].
  destruct (is_infinity x); [discriminate|].
  destruct (Z.frexp x) as [r e].
  destruct (shr_fexp prec emax _ _ _) as [s e'].
  destruct (shr_m s); discriminate.
Qed.

Lemma Binary64_lt_asym (x y : float) : flt x y = true -> flt y x = false.
Proof. simpl. rewrite !ltb_spec. apply SFltb_asym. Qed.

Lemma Binary64_lt_negtrans (x y z : float) :
  is_number y -> flt x y = false -> flt y z = false -> flt x z = false.
Proof.
  simpl. rewrite !ltb_spec. intros Hy.
  apply SFltb_negtrans. now apply is_number_not_nan.
Qed.

Lemma Binary64_neg_lt (x y : float) : flt (fneg x) (fneg y) = flt y x.
Proof. simpl. rewrite !ltb_spec, !opp_spec. apply SFltb_opp. Qed.

Lemma Binary64_one : Prim2SF (fdiv 1 1) = S754_finite false 4503599627370496 (-52).
Proof. vm_compute. reflexivity. Qed.

(** A product with 1.0 is exact: the mantissa is shifted up by 52 bits and
    rounded back down by as many. *)
Lemma SF64mul_one (s : spec_float) :
  valid_binary s = true ->
  SF64mul s (S754_finite false 4503599627370496 (-52)) = s.
Proof.
  intros Hv. destruct s as [sx|sx| |sx mx ex].
  - unfold SF64mul, SFmul. now rewrite xorb_false_r.
  - unfold SF64mul, SFmul. now rewrite xorb_false_r.
  - reflexivity.
  - unfold valid_binary, bounded, canonical_mantissa in Hv.
    apply andb_true_iff in Hv. destruct Hv as [Hc Hb].
    apply Z.eqb_eq in Hc.
    unfold SF64mul, SFmul. rewrite xorb_false_r, Pos.mul_comm.
    unfold binary_round_aux.
    assert (Ed : (digits2_pos (4503599627370496 * mx)
                  = digits2_pos mx + 52)%positive).
    { change (4503599627370496 * mx)%positive with (Pos.iter xO mx 52%positive).
      cbv [Pos.iter]. cbn [digits2_pos]. lia. }
    assert (E1 : shr_fexp prec emax (Z.pos (4503599627370496 * mx)) (ex + -52)
                   loc_Exact
                 = ({| shr_m := Z.pos mx; shr_r := false; shr_s := false |}, ex)).
    { unfold shr_fexp. cbn [Zdigits2]. rewrite Ed.
      replace (Z.pos (digits2_pos mx + 52) + (ex + -52))
        with (Z.pos (digits2_pos mx) + ex) by lia.
      rewrite Hc. replace (ex - (ex + -52)) with 52 by lia.
      unfold shr. replace (ex + -52 + 52) with ex by lia.
      change (4503599627370496 * mx)%positive with (Pos.iter xO mx 52%positive).
      reflexivity. }
    rewrite E1. cbn [shr_m loc_of_shr_record round_nearest_even].
    assert (E2 : shr_fexp prec emax (Z.pos mx) ex loc_Exact
                 = ({| shr_m := Z.pos mx; shr_r := false; shr_s := false |}, ex)).
    { unfold shr_fexp. cbn [Zdigits2]. rewrite Hc, Z.sub_diag. reflexivity. }
    rewrite E2. cbn [shr_m]. now rewrite Hb.
Qed.

Lemma Binary64_mul_one (x : float) : fmul x (fdiv 1 1) = x.
Proof.
  apply Prim2SF_inj. change (fmul x (fdiv 1 1)) with (PrimFloat.mul x (fdiv 1 1)).
  rewrite mul_spec, Binary64_one. apply SF64mul_one, Prim2SF_valid.
Qed.

(** ** The claims on scoring, ranking and the report, for binary64 *)

(** C1: when the start marker matches nowhere, the article list is empty and
    so is the corpus of lemma lists; [reduce] has no initial value and raises
    [TypeError] on it, so [calculate_tf_idf] raises and [main] writes no
    report, although the formatter alone turns an empty list into the empty
    report. *)
Theorem empty_corpus_raises (is_decimal : char_class)
  (lower : str -> str) (word_tokenize : str -> list str)
  (stopwords_russian : list str) (normal_form : str -> str) (text : str) :
  count_matches (start_marker is_decimal) text = 0%nat ->
  split_text_into_articles is_decimal text = Ok []
  /\ lemmatize_articles normal_form
       (articles_preprocessing lower word_tokenize stopwords_russian []) = []
  /\ count_number_of_articles_with_all_words [] = Raise TypeError
  /\ @calculate_tf_idf float _ [] = Raise TypeError
  /\ @main float _ _ is_decimal lower word_tokenize stopwords_russian
       normal_form text
     = Raise TypeError
  /\ forall limit, @format_tf_idf float _ [] limit = [].
Proof.
  intros Hc.
  assert (Hsplit : split_text_into_articles is_decimal text = Ok []).
  { unfold split_text_into_articles, re_split.
    destruct (length text); simpl; [reflexivity|].
    now rewrite re_search_no_match. }
  repeat split; try reflexivity; try assumption.
  unfold main. rewrite Hsplit. reflexivity.
Qed.

Lemma empty_corpus_raises_witness :
  split_text_into_articles unicode_decimal (pystr "no article here") = Ok []
  /\ @main float _ _ unicode_decimal (fun s => s) (re_split (literal (pystr " ")))
       [] (fun s => s) (pystr "no article here")
     = Raise TypeError.
Proof.
  destruct (empty_corpus_raises unicode_decimal (fun s => s)
              (re_split (literal (pystr " "))) [] (fun s => s)
              (pystr "no article here") eq_refl)
    as (Hsplit & _ & _ & _ & Hmain & _).
  split; [exact Hsplit | exact Hmain].
Defined.

(** C2: in a corpus, a lemma [w] of an article is scored
    (count of [w] in the article / number of lemmas of the article)
    * (number of articles / number of articles with [w]); when the corpus is
    one article of distinct lemmas that is 1 / number of lemmas, the other
    factor being 1.0. *)
Theorem tf_idf_scores (corpus : list (list str)) (i : nat)
  (article : list str) (w : str) :
  nth_error corpus i = Some article ->
  In w article ->
  exists tf_idfs scores,
    @calculate_tf_idf float _ corpus = Ok tf_idfs
    /\ nth_error tf_idfs i = Some scores
    /\ dict_get scores w
       = Some (PrimFloat.mul
                 (int_true_divide (occurrences w article) (len article))
                 (int_true_divide (len corpus) (document_frequency w corpus)))
    /\ (corpus = [article] -> NoDup article ->
        dict_get scores w = Some (int_true_divide 1 (len article))).
Proof.
  intros Hi Hw. destruct (nth_error_In_corpus _ _ _ Hi) as [Ha Hne].
  rewrite calculate_tf_idf_ranked by assumption.
  eexists. eexists. split; [reflexivity|].
  split; [apply map_nth_error; exact Hi|].
  assert (Hget : dict_get
                   (sorted (fun x => fneg (snd x)) (counted_scores corpus article)) w
                 = Some (tf_idf corpus article w)).
  { apply dict_get_In.
    - apply sorted_keys_NoDup. rewrite counted_scores_keys.
      apply first_seen_NoDup.
    - eapply Permutation_in; [apply sorted_Permutation|].
      unfold counted_scores.
      apply (in_map (fun w => (w, tf_idf corpus article w))).
      now apply first_seen_In. }
  split; [exact Hget|].
  intros -> Hnd. rewrite Hget. unfold tf_idf.
  rewrite (occurrences_distinct w article Hnd Hw).
  assert (Hdf : document_frequency w [article] = 1).
  { unfold document_frequency. simpl.
    apply in_list_In in Hw. now rewrite Hw. }
  rewrite Hdf. change (len [article]) with 1.
  now rewrite Binary64_mul_one.
Qed.

Lemma tf_idf_scores_witness :
  exists tf_idfs scores,
    @calculate_tf_idf float _ [[pystr "a"; pystr "b"; pystr "c"]] = Ok tf_idfs
    /\ nth_error tf_idfs 0 = Some scores
    /\ dict_get scores (pystr "b") = Some (PrimFloat.div 1 3).
Proof.
  destruct (tf_idf_scores [[pystr "a"; pystr "b"; pystr "c"]] 0%nat
              [pystr "a"; pystr "b"; pystr "c"] (pystr "b") eq_refl)
    as (tf_idfs & scores & Hrun & Hnth & _ & Hone).
  - simpl. tauto.
  - exists tf_idfs, scores. split; [exact Hrun|]. split; [exact Hnth|].
    rewrite Hone.
    + vm_compute. reflexivity.
    + reflexivity.
    + repeat constructor; simpl; intuition discriminate.
Defined.

(** C9: for a lemma of an article of the corpus the table has an entry, and
    the entry is at least 1: the lookup raises no [KeyError], the division
    by it no [ZeroDivisionError], and the scoring of the corpus returns. *)
Theorem document_frequency_positive (corpus : list (list str))
  (article : list str) (w : str) :
  In article corpus ->
  In w article ->
  exists table n,
    count_number_of_articles_with_all_words corpus = Ok table
    /\ getitem table w = Ok n
    /\ 1 <= n
    /\ @truediv float _ (len corpus) n = Ok (int_true_divide (len corpus) n)
    /\ exists tf_idfs, @calculate_tf_idf float _ corpus = Ok tf_idfs.
Proof.
  intros Ha Hw.
  assert (Hne : corpus <> []) by (destruct corpus; [destruct Ha | discriminate]).
  pose proof (document_frequency_pos w article corpus Ha Hw) as Hdf.
  eexists. exists (document_frequency w corpus).
  split; [now apply document_frequency_table|].
  split.
  { unfold getitem.
    rewrite (dict_get_map (fun w => document_frequency w corpus)); [reflexivity|].
    apply first_seen_In, in_concat. now exists article. }
  split; [assumption|]. split.
  - unfold truediv.
    destruct (Z.eqb_spec (document_frequency w corpus) 0); [lia | reflexivity].
  - eexists. now apply calculate_tf_idf_ranked.
Qed.

Lemma document_frequency_positive_witness :
  exists table n,
    count_number_of_articles_with_all_words
      [[pystr "a"; pystr "b"]; [pystr "b"]] = Ok table
    /\ getitem table (pystr "b") = Ok n
    /\ 1 <= n.
Proof.
  destruct (document_frequency_positive
              [[pystr "a"; pystr "b"]; [pystr "b"]] [pystr "b"] (pystr "b"))
    as (table & n & Hrun & Hget & Hn & _).
  - simpl. tauto.
  - simpl. tauto.
  - exists table, n. split; [exact Hrun|]. split; [exact Hget | exact Hn].
Defined.

(** C6: an article without lemmas does not stop the scoring: its loop over
    the counted words has no round, so no quotient by its length 0 is taken;
    it gets the empty mapping, and its block of the report is its header
    alone, between the blocks of the articles before and after it. *)
Theorem empty_article_scored (corpus : list (list str)) (i : nat) :
  nth_error corpus i = Some [] ->
  exists tf_idfs,
    @calculate_tf_idf float _ corpus = Ok tf_idfs
    /\ nth_error tf_idfs i = Some []
    /\ forall limit,
         format_tf_idf tf_idfs limit
         = concat (map (block limit) (firstn i (enumerate tf_idfs)))
           ++ (nl ++ pystr "Article " ++ str_of_int (Z.of_nat i + 1) ++ nl)
           ++ concat (map (block limit) (skipn (S i) (enumerate tf_idfs))).
Proof.
  intros Hi. destruct (nth_error_In_corpus _ _ _ Hi) as [_ Hne].
  rewrite calculate_tf_idf_ranked by assumption.
  eexists. split; [reflexivity|].
  assert (Hnth : nth_error
                   (map (fun article =>
                           sorted (fun x => fneg (snd x))
                             (counted_scores corpus article)) corpus) i
                 = Some []).
  { now rewrite (map_nth_error _ _ _ Hi). }
  split; [exact Hnth|].
  intros limit. rewrite format_tf_idf_blocks.
  rewrite (nth_error_firstn_skipn _ _ _ (nth_error_enumerate _ _ _ Hnth)) at 1.
  rewrite map_app, concat_app. simpl map. simpl concat.
  unfold block at 2. simpl fst. simpl snd.
  rewrite emitted_nil. simpl map. simpl concat. rewrite app_nil_r.
  reflexivity.
Qed.

Lemma empty_article_scored_witness :
  exists tf_idfs,
    @calculate_tf_idf float _ [[pystr "a"]; []; [pystr "b"; pystr "a"]]
    = Ok tf_idfs
    /\ nth_error tf_idfs 1 = Some []
    /\ format_tf_idf tf_idfs 20
       = (nl ++ pystr "Article 1" ++ nl ++ pystr "a: 1.5" ++ nl)
         ++ (nl ++ pystr "Article 2" ++ nl)
         ++ (nl ++ pystr "Article 3" ++ nl ++ pystr "b: 1.5" ++ nl
             ++ pystr "a: 0.75" ++ nl).
Proof.
  destruct (empty_article_scored [[pystr "a"]; []; [pystr "b"; pystr "a"]]
              1%nat eq_refl) as (tf_idfs & Hrun & Hnth & Hreport).
  exists tf_idfs. split; [exact Hrun|]. split; [exact Hnth|].
  rewrite Hreport. injection Hrun as <-. vm_compute. reflexivity.
Defined.

(** C7, amended: for a limit that is not negative and mappings whose
    entries are in the order [sort_tf_idfs] puts them in, no score exceeded
    by a later one, the report has for the N-th
    article, N from 1, the header "Article N" and then one line
    "lemma: score", the score rounded to 5 digits, for each of the first
    min(limit, number of lemmas) entries, none of which scores below an entry
    left out: at limit 20, 5 entries are all listed and 50 give 20 lines. *)
Theorem report_top_terms (tf_idfs : list (dict float)) (limit : Z) :
  0 <= limit ->
  Forall (non_increasing snd) tf_idfs ->
  format_tf_idf tf_idfs limit
  = concat
      (map (fun nd =>
              nl ++ pystr "Article " ++ str_of_int (Z.of_nat (fst nd)) ++ nl
              ++ concat (map term_line (emitted limit (snd nd))))
         (combine (seq 1 (length tf_idfs)) tf_idfs))
  /\ (forall term : str * float,
         term_line term
         = fst term ++ pystr ": " ++ float_repr (float_round (snd term) 5)
           ++ nl)
  /\ forall article, In article tf_idfs ->
       len (emitted limit article) = Z.min limit (len article)
       /\ (exists rest,
              article = emitted limit article ++ rest
              /\ forall x y, In x (emitted limit article) -> In y rest ->
                             PrimFloat.ltb (snd x) (snd y) = false)
       /\ (limit = 20 -> length article = 5%nat ->
           emitted limit article = article)
       /\ (limit = 20 -> length article = 50%nat ->
           length (emitted limit article) = 20%nat).
Proof.
  intros Hl Hsorted. split; [|split; [reflexivity|]].
  - rewrite format_tf_idf_blocks. unfold enumerate.
    now rewrite blocks_numbered.
  - intros article Ha. rewrite emitted_firstn by assumption.
    rewrite Forall_forall in Hsorted. specialize (Hsorted article Ha).
    split; [|split; [|split]].
    + unfold len. rewrite length_firstn. lia.
    + exists (skipn (Z.to_nat limit) article).
      split; [now rewrite firstn_skipn|].
      intros x y Hx Hy.
      exact (StronglySorted_firstn_skipn _ _ Hsorted _ x y Hx Hy).
    + intros -> H5. apply firstn_all2. rewrite H5.
      change (Z.to_nat 20) with 20%nat. lia.
    + intros -> H50. rewrite length_firstn, H50. reflexivity.
Qed.

Lemma report_top_terms_witness :
  @format_tf_idf float _
    [[(pystr "a", 2%float); (pystr "b", PrimFloat.div 1 3)]] 1
  = nl ++ pystr "Article 1" ++ nl ++ pystr "a: 2.0" ++ nl.
Proof.
  destruct (report_top_terms
              [[(pystr "a", 2%float); (pystr "b", PrimFloat.div 1 3)]] 1)
    as (Hreport & _).
  - lia.
  - repeat constructor.
  - rewrite Hreport. vm_compute. reflexivity.
Defined.

(** C7 as the specification has it fails twice: a negative limit cuts the
    mapping from its end, so that limit -1 lists one of two entries; and the
    formatter lists the first entries of the mapping as it gets it, so that of
    a mapping that is not ranked it lists an entry that scores below one it
    leaves out. *)
Lemma report_top_terms_counterexample :
  len (emitted (-1) [(pystr "a", 2%float); (pystr "b", 1%float)])
  <> Z.min (-1) (len [(pystr "a", 2%float); (pystr "b", 1%float)])
  /\ @format_tf_idf float _ [[(pystr "a", 2%float); (pystr "b", 1%float)]] (-1)
     = nl ++ pystr "Article 1" ++ nl ++ pystr "a: 2.0" ++ nl
  /\ @format_tf_idf float _
       [[(pystr "a", 0.25%float); (pystr "b", 0.75%float)]] 1
     = nl ++ pystr "Article 1" ++ nl ++ pystr "a: 0.25" ++ nl
  /\ PrimFloat.ltb 0.25 0.75 = true.
Proof.
  split; [vm_compute; discriminate|].
  split; [vm_compute; reflexivity|].
  split; vm_compute; reflexivity.
Qed.

(** C5: every mapping whose scores are numbers is ranked into a
    rearrangement of its entries in which no score is exceeded by a later
    one and the entries tied with any given score keep the order they had in
    the mapping; the mappings that [calculate_tf_idf] ranks hold the lemmas
    of their articles in the order in which counting met them first. *)
Theorem ranking_order_stable :
  (forall tf_idfs : list (dict float),
      Forall (fun d => NoDup (keys d) /\ Forall (fun e => is_number (snd e)) d)
        tf_idfs ->
      Forall2
        (fun d ranked =>
           Permutation d ranked
           /\ non_increasing snd ranked
           /\ forall s,
                is_number s ->
                filter (fun e => tied (snd e) s) ranked
                = filter (fun e => tied (snd e) s) d)
        tf_idfs (sort_tf_idfs tf_idfs))
  /\ (forall corpus,
         corpus <> [] ->
         exists counted : list (dict float),
           calculate_tf_idf corpus = Ok (sort_tf_idfs counted)
           /\ Forall (fun d => NoDup (keys d)) counted
           /\ Forall2 (fun article d => keys d = first_seen article)
                corpus counted).
Proof.
  split.
  - intros tf_idfs Hwf. rewrite sort_tf_idfs_sorted
      by (eapply Forall_impl; [|exact Hwf]; intros d Hd; apply Hd).
    induction Hwf as [|d tf_idfs [_ Hnum] _ IH]; simpl; constructor.
    + split; [apply sorted_Permutation|]. split.
      * now apply (sorted_non_increasing is_number Binary64_lt_asym
                     Binary64_lt_negtrans Binary64_neg_lt).
      * intros s Hs.
        now apply (sorted_stable is_number Binary64_lt_negtrans
                     Binary64_neg_lt).
    + exact IH.
  - intros corpus Hne. exists (map (counted_scores corpus) corpus).
    assert (Hnd : Forall (fun d : dict float => NoDup (keys d))
                    (map (counted_scores corpus) corpus)).
    { apply Forall_forall. intros d Hd. apply in_map_iff in Hd.
      destruct Hd as (a & <- & _). rewrite counted_scores_keys.
      apply first_seen_NoDup. }
    split; [|split; [exact Hnd|]].
    + rewrite calculate_tf_idf_ranked by assumption.
      rewrite sort_tf_idfs_sorted by assumption. now rewrite map_map.
    + assert (Hall : forall c l,
                 Forall2
                   (fun article (d : dict float) => keys d = first_seen article)
                   l (map (counted_scores c) l)).
      { intros c l. induction l as [|a l IH]; simpl; constructor.
        - apply counted_scores_keys.
        - exact IH. }
      apply Hall.
Qed.

Lemma ranking_order_stable_witness :
  Forall2
    (fun d ranked =>
       Permutation d ranked
       /\ non_increasing snd ranked
       /\ forall s,
            is_number s ->
            filter (fun e => tied (snd e) s) ranked
            = filter (fun e => tied (snd e) s) d)
    [[(pystr "a", 0.25%float); (pystr "b", 0.5%float); (pystr "c", 0.25%float)]]
    (sort_tf_idfs
       [[(pystr "a", 0.25%float); (pystr "b", 0.5%float);
         (pystr "c", 0.25%float)]]).
Proof.
  apply (proj1 ranking_order_stable).
  repeat constructor; simpl; intuition discriminate.
Defined.

(** ** Runs of the pipeline *)

(** Two articles: "a" fills 2/3 of the first one and is in 1 of the 2
    articles, "b" fills 1/3 of it and is in both. *)
Example calculate_tf_idf_two_articles :
  @calculate_tf_idf float _ [[pystr "a"; pystr "b"; pystr "a"]; [pystr "b"]]
  = Ok [[(pystr "a", PrimFloat.mul (PrimFloat.div 2 3) (PrimFloat.div 2 1));
         (pystr "b", PrimFloat.mul (PrimFloat.div 1 3) (PrimFloat.div 2 2))];
        [(pystr "b", PrimFloat.mul (PrimFloat.div 1 1) (PrimFloat.div 2 2))]].
Proof. vm_compute. reflexivity. Qed.

(** Tied scores stay in the order of the mapping: "a" before "c". *)
Example sort_tf_idfs_tie :
  sort_tf_idfs
    [[(pystr "a", 0.25%float); (pystr "b", 0.5%float); (pystr "c", 0.25%float)]]
  = [[(pystr "b", 0.5%float); (pystr "a", 0.25%float); (pystr "c", 0.25%float)]].
Proof. vm_compute. reflexivity. Qed.

(** A text of three articles, the second with no token that passes the
    filter; the tokenizer splits at spaces, nothing is a stop word and every
    word is its own lemma.  In the first article "da" and "net" are tied at
    1.0 and stay in the order of their first occurrence. *)
Example main_with_empty_article :
  @main float _ _ unicode_decimal (fun s => s) (re_split (literal (pystr " "))) []
    (fun s => s) (pystr "УДК 001.da net net УДК 002.12 34 УДК 003.net")
  = Ok (nl ++ pystr "Article 1" ++ nl ++ pystr "da: 1.0" ++ nl
           ++ pystr "net: 1.0" ++ nl
        ++ nl ++ pystr "Article 2" ++ nl
        ++ nl ++ pystr "Article 3" ++ nl ++ pystr "net: 1.5" ++ nl).
Proof. vm_compute. reflexivity. Qed.

(** Rounding and printing of floats. *)
Example float_repr_round :
  map (fun x => float_repr (float_round x 5))
    [PrimFloat.div 1 3; PrimFloat.div 2 3; PrimFloat.div 1 100000;
     PrimFloat.div 1 1000000; 2%float; PrimFloat.div 123456789 1000]
  = map pystr ["0.33333"; "0.66667"; "1e-05"; "0.0"; "2.0"; "123456.789"]%string.
Proof. vm_compute. reflexivity. Qed.

(** [str(x)] on floats, as CPython 3.11 prints them. *)
Example float_repr_values :
  map float_repr
    [(0x1.3333333333334p-2)%float;
     (0x1.1c37937e08000p+53)%float;
     (0x1.c6bf526340000p+49)%float;
     (0x1.b69b4ba630f35p+56)%float;
     (0x0.0000000000001p-1022)%float;
     (0x1.fffffffffffffp+1023)%float;
     (0x1.0000000000000p+53)%float;
     (0x1.4f8b588e368f1p-17)%float;
     (0x1.a36e2eb1c432dp-14)%float;
     (0x1.421f5f40d8376p-23)%float;
     (0x1.0f0cf064dd592p+73)%float;
     (0x1.52d02c7e14af6p+76)%float;
     (0x1.0000000000000p-1022)%float;
     (-0x1.4000000000000p+1)%float;
     (0x1.9000000000000p+6)%float;
     (0x1.0624dd2f1a9fcp-10)%float;
     (0x1.1666666666666p+2)%float]
  = map pystr
      ["0.30000000000000004";
       "1e+16";
       "1000000000000000.0";
       "1.2345678901234568e+17";
       "5e-324";
       "1.7976931348623157e+308";
       "9007199254740992.0";
       "1e-05";
       "0.0001";
       "1.5e-07";
       "1e+22";
       "1e+23";
       "2.2250738585072014e-308";
       "-2.5";
       "100.0";
       "0.001";
       "4.35"]%string.
Proof. vm_compute. reflexivity. Qed.

(** [round(x, ndigits)] on floats, as CPython 3.11 computes it. *)
Example float_round_values :
  map (fun t => float_round (fst t) (snd t))
    [((0x1.5555555555555p-2)%float, 5);
     ((0x1.5555555555555p-1)%float, 5);
     ((0x1.4f8b588e368f1p-18)%float, 5);
     ((0x1.f75104d551d69p-17)%float, 5);
     ((0x1.5666666666666p+1)%float, 2);
     ((0x1.12e0be826d695p-30)%float, 5);
     ((-0x1.12e0be826d695p-30)%float, 5);
     ((0x1.d6f34547e6b75p+26)%float, 5);
     ((0x1.0f0cf064dd592p+73)%float, 5);
     ((0x1.0000000000000p-1)%float, 0);
     ((0x1.8000000000000p+0)%float, 0);
     ((0x1.4000000000000p+1)%float, 0);
     ((0x1.34a0000000000p+10)%float, (-2));
     ((0x1.1666666666666p+2)%float, 1)]
  = [(0x1.555475a31a4bep-2)%float;
     (0x1.5555c52e72da1p-1)%float;
     (0x1.4f8b588e368f1p-17)%float;
     (0x1.4f8b588e368f1p-16)%float;
     (0x1.55c28f5c28f5cp+1)%float;
     (0x0.0p+0)%float;
     (-0x0.0p+0)%float;
     (0x1.d6f34547e6c4cp+26)%float;
     (0x1.0f0cf064dd592p+73)%float;
     (0x0.0p+0)%float;
     (0x1.0000000000000p+1)%float;
     (0x1.0000000000000p+1)%float;
     (0x1.2c00000000000p+10)%float;
     (0x1.1333333333333p+2)%float].
Proof. vm_compute. reflexivity. Qed.

(** [a / b] on ints, as CPython 3.11 computes it. *)
Example int_true_divide_values :
  map (fun t => int_true_divide (fst t) (snd t))
    [(1, 3);
     (2, 3);
     (0, (-5));
     (7, 2);
     ((-7), 2);
     (1000000000000000000000000000000, 3);
     (18446744073709551617, 18446744073709551616);
     (1, 1000000000000000000000000000000);
     (9007199254740993, 1);
     (3, 100000)]
  = [(0x1.5555555555555p-2)%float;
     (0x1.5555555555555p-1)%float;
     (-0x0.0p+0)%float;
     (0x1.c000000000000p+1)%float;
     (-0x1.c000000000000p+1)%float;
     (0x1.0d43b7bc05df1p+98)%float;
     (0x1.0000000000000p+0)%float;
     (0x1.4484bfeebc2a0p-100)%float;
     (0x1.0000000000000p+53)%float;
     (0x1.f75104d551d69p-16)%float].
Proof. vm_compute. reflexivity. Qed.

(** * Further properties of the pipeline *)

(** ** The two filters and the preprocessing *)

Lemma filter_comm {A} (f g : A -> bool) (l : list A) :
  filter f (filter g l) = filter g (filter f l).
Proof.
  rewrite !filter_filter. apply filter_ext. intros x. apply andb_comm.
Qed.

Lemma filter_idem {A} (f : A -> bool) (l : list A) :
  filter f (filter f l) = filter f l.
Proof.
  rewrite filter_filter. apply filter_ext. intros x. now destruct (f x).
Qed.

Lemma not_in_list (x : str) (l : list str) :
  negb (in_list x l) = true <-> ~ In x l.
Proof.
  rewrite negb_true_iff, <- in_list_In. destruct (in_list x l); split; congruence.
Qed.

Lemma lower_articles_map (lower : str -> str) (articles : list str) :
  lower_articles lower articles = map lower articles.
Proof. exact (fold_left_append_map lower articles []). Qed.

Lemma tokenize_articles_map (word_tokenize : str -> list str)
  (articles : list str) :
  tokenize_articles word_tokenize articles = map word_tokenize articles.
Proof. exact (fold_left_append_map word_tokenize articles []). Qed.

Lemma articles_preprocessing_map (lower : str -> str)
  (word_tokenize : str -> list str) (stopwords : list str)
  (articles : list str) :
  articles_preprocessing lower word_tokenize stopwords articles
  = map (fun a =>
           filter keeps_word
             (filter (fun w => negb (in_list w stopwords))
                (word_tokenize (lower a))))
      articles.
Proof.
  unfold articles_preprocessing.
  rewrite remove_junk_from_articles_map, tokenize_articles_map,
    lower_articles_map, !map_map.
  apply map_ext. intros a.
  now rewrite remove_non_alphabetical_words_filter, remove_stop_words_filter.
Qed.



(** X2: the two filters of [remove_junk_from_articles] can be taken in either
    order: removing the stop words and then the words that are not
    alphabetical gives what the other order gives. *)
Theorem junk_filters_commute (stopwords words : list str) :
  remove_non_alphabetical_words (remove_stop_words stopwords words)
  = remove_stop_words stopwords (remove_non_alphabetical_words words).
Proof.
  rewrite !remove_non_alphabetical_words_filter, !remove_stop_words_filter.
  apply filter_comm.
Qed.

(** X3: [remove_junk_from_articles] removes all the junk at once: applied to
    its own result it changes nothing. *)
Theorem remove_junk_from_articles_idempotent (stopwords : list str)
  (articles : list (list str)) :
  remove_junk_from_articles stopwords
    (remove_junk_from_articles stopwords articles)
  = remove_junk_from_articles stopwords articles.
Proof.
  rewrite !remove_junk_from_articles_map, map_map. apply map_ext. intros a.
  rewrite !remove_non_alphabetical_words_filter, !remove_stop_words_filter.
  rewrite (filter_comm (fun w => negb (in_list w stopwords)) keeps_word
             (filter (fun w => negb (in_list w stopwords)) a)).
  now rewrite !filter_idem.
Qed.

(** X4: [articles_preprocessing] returns one list of words per article, in the
    order of the articles: the tokens of the article in lower case that are
    no stop words and pass the alphabetic filter.  An article that keeps no
    token gives an empty list and is not dropped. *)
Theorem articles_preprocessing_per_article (lower : str -> str)
  (word_tokenize : str -> list str) (stopwords_russian : list str)
  (articles : list str) :
  length (articles_preprocessing lower word_tokenize stopwords_russian articles)
  = length articles
  /\ forall i,
       nth_error
         (articles_preprocessing lower word_tokenize stopwords_russian articles)
         i
       = option_map
           (fun article =>
              filter keeps_word
                (filter (fun w => negb (in_list w stopwords_russian))
                   (word_tokenize (lower article))))
           (nth_error articles i).
Proof.
  rewrite articles_preprocessing_map. split.
  - apply length_map.
  - intros i. apply nth_error_map.
Qed.

(** X5: [lemmatize_articles] returns for every article the base forms of its
    words, one for each word and in their order, so that the corpus keeps
    the number of its articles and every article the number of its words. *)
Theorem lemmatize_articles_per_word (normal_form : str -> str)
  (articles : list (list str)) :
  length (lemmatize_articles normal_form articles) = length articles
  /\ Forall2
       (fun article lemmas =>
          length lemmas = length article
          /\ forall j,
               nth_error lemmas j
               = option_map normal_form (nth_error article j))
       articles (lemmatize_articles normal_form articles).
Proof.
  rewrite lemmatize_articles_map. split; [apply length_map|].
  induction articles as [|a articles IH]; simpl; constructor; [|exact IH].
  split; [apply length_map|]. intros j. apply nth_error_map.
Qed.

(** X6: every word that [articles_preprocessing] hands on (to the lemmatizer)
    is not empty, has only letters of the two alphabets and hyphens, and is
    no stop word. *)
Theorem preprocessed_words_are_clean (lower : str -> str)
  (word_tokenize : str -> list str) (stopwords_russian : list str)
  (articles : list str) (article : list str) (word : str) :
  In article
    (articles_preprocessing lower word_tokenize stopwords_russian articles) ->
  In word article ->
  word <> []
  /\ (forall c, In c word -> letter_or_hyphen c)
  /\ ~ In word stopwords_russian.
Proof.
  rewrite articles_preprocessing_map. intros Ha Hw.
  apply in_map_iff in Ha. destruct Ha as (a & <- & _).
  apply filter_In in Hw. destruct Hw as [Hw Hk].
  apply filter_In in Hw. destruct Hw as [_ Hs].
  apply keeps_word_spec in Hk. destruct Hk as [(c & Hc & _) Hall].
  split; [|split].
  - intros ->. destruct Hc.
  - exact Hall.
  - now apply not_in_list.
Qed.

Lemma preprocessed_words_are_clean_witness :
  pystr "da" <> []
  /\ (forall c, In c (pystr "da") -> letter_or_hyphen c)
  /\ ~ In (pystr "da") [pystr "i"].
Proof.
  apply (preprocessed_words_are_clean (fun s => s)
           (re_split (literal (pystr " "))) [pystr "i"]
           [pystr "da i 12"] [pystr "da"] (pystr "da")).
  - vm_compute. tauto.
  - simpl. tauto.
Defined.

(** X7: the alphabetic filter takes a hyphen for a letter: a token of hyphens
    alone passes it, as does every token that is not empty and has letters
    and hyphens only; the empty token and a token with any other character
    do not. *)
Theorem hyphens_count_as_letters (word : str) :
  ((word <> [] /\ forall c, In c word -> c = 45) -> keeps_word word = true)
  /\ ((word <> [] /\ forall c, In c word -> letter_or_hyphen c) ->
      keeps_word word = true)
  /\ ((word = [] \/ exists c, In c word /\ ~ letter_or_hyphen c) ->
      keeps_word word = false).
Proof.
  assert (Hok : (word <> [] /\ forall c, In c word -> letter_or_hyphen c) ->
                keeps_word word = true).
  { intros [Hne Hall]. apply keeps_word_spec. split; [|exact Hall].
    destruct word as [|c word]; [congruence|].
    exists c. split; [now left | apply Hall; now left]. }
  split; [|split; [exact Hok|]].
  - intros [Hne Hall]. apply Hok. split; [exact Hne|].
    intros c Hc. apply Hall in Hc. unfold letter_or_hyphen. lia.
  - intros Hbad. destruct (keeps_word word) eqn:E; [|reflexivity].
    apply keeps_word_spec in E. destruct E as [(c & Hc & _) Hall].
    destruct Hbad as [->|(c' & Hc' & Hn)]; [destruct Hc|].
    exfalso. apply Hn, Hall, Hc'.
Qed.

Lemma hyphens_count_as_letters_witness :
  keeps_word (pystr "--") = true /\ keeps_word (pystr "don't") = false.
Proof.
  destruct (hyphens_count_as_letters (pystr "--")) as (Hyes & _ & _).
  destruct (hyphens_count_as_letters (pystr "don't")) as (_ & _ & Hno).
  split.
  - apply Hyes. split; [discriminate|].
    intros c Hc. vm_compute in Hc. intuition congruence.
  - apply Hno. right. exists 39. split; [vm_compute; tauto|].
    unfold letter_or_hyphen. lia.
Defined.

(** ** The articles and the text *)

Lemma match_prefix_app (pat : pattern) (s rest x : str) :
  match_prefix pat s = Some rest ->
  match_prefix pat (s ++ x) = Some (rest ++ x).
Proof.
  revert s; induction pat as [|p pat IH]; intros s Hm; simpl in *.
  - now injection Hm as ->.
  - destruct s as [|c s]; [discriminate|]. simpl.
    destruct (p c); [now apply IH | discriminate].
Qed.

Lemma absent_prefix (pat : pattern) (a r : str) :
  pat <> [] -> absent pat (a ++ r) -> absent pat a.
Proof.
  intros Hp Ha k.
  destruct (Nat.le_gt_cases (length a) k) as [Hk|Hk].
  - rewrite skipn_all2 by assumption. now apply match_prefix_nil.
  - destruct (match_prefix pat (skipn k a)) as [rest|] eqn:E; [|reflexivity].
    apply (match_prefix_app _ _ _ r) in E.
    specialize (Ha k). rewrite skipn_app in Ha.
    replace (k - length a)%nat with 0%nat in Ha by lia. simpl in Ha.
    congruence.
Qed.

Lemma leftmost_pre_absent (pat : pattern) (s pre post : str) :
  pat <> [] -> leftmost pat s pre post -> absent pat pre.
Proof.
  intros Hp (m & -> & _ & Hb) k.
  destruct (Nat.le_gt_cases (length pre) k) as [Hk|Hk].
  - rewrite skipn_all2 by assumption. now apply match_prefix_nil.
  - destruct (match_prefix pat (skipn k pre)) as [rest|] eqn:E; [|reflexivity].
    apply (match_prefix_app _ _ _ (m ++ post)) in E.
    specialize (Hb k Hk). rewrite skipn_app in Hb.
    replace (k - length pre)%nat with 0%nat in Hb by lia. simpl in Hb.
    congruence.
Qed.

Lemma truncated_absent (pat : pattern) (s t : str) :
  pat <> [] -> truncated pat s t -> absent pat t.
Proof.
  intros Hp [[Ha ->]|(post & Hl)]; [assumption|].
  now apply leftmost_pre_absent with s post.
Qed.

Lemma truncated_prefix (pat : pattern) (s t : str) :
  truncated pat s t -> exists r, s = t ++ r.
Proof.
  intros [[_ ->]|(post & m & -> & _)].
  - exists []. now rewrite app_nil_r.
  - now exists (m ++ post).
Qed.

Lemma segments_pieces_absent (pat : pattern) (s : str) (l : list str) :
  pat <> [] -> segments pat s l -> Forall (absent pat) l.
Proof.
  intros Hp H; induction H as [s Ha | s pre post rest Hlm Hrest IH].
  - now constructor.
  - constructor; [|assumption]. now apply leftmost_pre_absent with s post.
Qed.

(** What [split_text_into_articles] does, piece by piece. *)
Lemma split_text_into_articles_pieces (is_decimal : char_class) (text : str) :
  exists preamble bodies articles,
    segments (start_marker is_decimal) text (preamble :: bodies)
    /\ split_text_into_articles is_decimal text = Ok articles
    /\ Forall2 (truncated end_marker) bodies articles.
Proof.
  pose proof (re_split_segments _ text (start_marker_not_nil is_decimal)) as Hseg.
  unfold split_text_into_articles.
  destruct (re_split (start_marker is_decimal) text) as [|preamble bodies];
    [inversion Hseg|].
  destruct (for_each_append_Forall2
              (fun a => item0 (re_split end_marker a)) (truncated end_marker)
              bodies (fun a => item0_re_split _ a end_marker_not_nil) [])
    as (articles & Hrun & Hcut).
  exists preamble, bodies, articles. simpl tl. repeat split; assumption.
Qed.

(** X8: [split_text_into_articles] raises nothing, and no article it returns
    holds a start marker or an end marker: the markers are cut out of the
    text, and what follows an end marker goes with it. *)
Theorem articles_hold_no_marker (is_decimal : char_class) (text : str) :
  exists articles,
    split_text_into_articles is_decimal text = Ok articles
    /\ Forall
         (fun article =>
            absent (start_marker is_decimal) article
            /\ absent end_marker article)
         articles.
Proof.
  destruct (split_text_into_articles_pieces is_decimal text)
    as (preamble & bodies & articles & Hseg & Hrun & Hcut).
  exists articles. split; [exact Hrun|].
  apply segments_pieces_absent in Hseg; [|apply start_marker_not_nil].
  inversion Hseg as [|? ? _ Hbodies]; subst. clear Hseg Hrun.
  induction Hcut as [|b a bodies articles Hba Hcut IH]; constructor.
  - inversion Hbodies; subst. split.
    + destruct (truncated_prefix _ _ _ Hba) as (r & ->).
      apply absent_prefix with r; [apply start_marker_not_nil | assumption].
    + apply truncated_absent with b; [apply end_marker_not_nil | assumption].
  - apply IH. now inversion Hbodies.
Qed.

Lemma segments_interleave (pat pat' : pattern) (s : str) (l : list str) :
  segments pat s l ->
  forall b bodies a articles,
    l = b :: bodies ->
    Forall2 (truncated pat') (b :: bodies) (a :: articles) ->
    exists gaps,
      length gaps = S (length articles)
      /\ s = a ++ interleave gaps articles.
Proof.
  induction 1 as [s Ha | s pre post rest Hlm Hrest IH];
    intros b bodies a articles El Hcut; injection El as <- <-.
  - inversion Hcut as [|? ? ? ? Hba Hnil]; subst. inversion Hnil; subst.
    destruct (truncated_prefix _ _ _ Hba) as (r & ->).
    exists [r]. split; reflexivity.
  - inversion Hcut as [|? ? ? ? Hba Hrest']; subst.
    destruct Hlm as (m & -> & _ & _).
    destruct (truncated_prefix _ _ _ Hba) as (r & ->).
    destruct rest as [|b2 bodies2]; [inversion Hrest|].
    inversion Hrest' as [|? a2 ? articles2 Hba2 Hcut2]; subst.
    destruct (IH b2 bodies2 a2 articles2 eq_refl Hrest') as (gaps & Hlen & ->).
    exists ((r ++ m) :: gaps). split; [simpl; lia|].
    simpl. now rewrite <- !app_assoc.
Qed.

Lemma segments_head (pat : pattern) (s p : str) (bodies : list str) :
  segments pat s (p :: bodies) ->
  (bodies = [] /\ s = p /\ absent pat s)
  \/ (exists post, leftmost pat s p post /\ segments pat post bodies).
Proof.
  intros H. inversion H as [s0 Ha | s0 pre post rest Hlm Hrest]; subst.
  - left. repeat split; assumption.
  - right. now exists post.
Qed.

(** X9: the articles are pieces of the text, in the order of the text and
    without overlap: the text is made of them and of what lies before,
    between and after them. *)
Theorem articles_are_pieces_of_the_text (is_decimal : char_class)
  (text : str) :
  exists articles gaps,
    split_text_into_articles is_decimal text = Ok articles
    /\ length gaps = S (length articles)
    /\ text = interleave gaps articles.
Proof.
  destruct (split_text_into_articles_pieces is_decimal text)
    as (preamble & bodies & articles & Hseg & Hrun & Hcut).
  exists articles.
  destruct (segments_head _ _ _ _ Hseg) as [(-> & E & _)|(post & Hlm & Hrest)].
  - inversion Hcut; subst. exists [preamble]. repeat split; assumption.
  - destruct bodies as [|b bodies']; [inversion Hrest|].
    inversion Hcut as [|? a ? articles' Hba Hcut']; subst.
    destruct (segments_interleave _ _ _ _ Hrest b bodies' a articles' eq_refl Hcut)
      as (gaps & Hlen & Epost).
    destruct Hlm as (m & E & _ & _).
    exists ((preamble ++ m) :: gaps). split; [exact Hrun|].
    split; [simpl; lia|].
    rewrite E, Epost. simpl. now rewrite <- !app_assoc.
Qed.


(** ** The whole run *)




(** ** The table and the scores *)

Lemma dict_get_map_inv (f : str -> Z) (l : list str) (w : str) (n : Z) :
  dict_get (map (fun x => (x, f x)) l) w = Some n -> In w l /\ n = f w.
Proof.
  induction l as [|x l IH]; simpl; [discriminate|].
  destruct (str_eqb w x) eqn:E.
  - apply str_eqb_eq in E. subst x. intros H. injection H as <-. auto.
  - intros H. destruct (IH H). auto.
Qed.

Lemma dict_get_map_absent (f : str -> Z) (l : list str) (w : str) :
  ~ In w l -> dict_get (map (fun x => (x, f x)) l) w = None.
Proof.
  intros Hn. apply dict_get_None. unfold keys. rewrite map_map. simpl.
  now rewrite map_id.
Qed.

Lemma document_frequency_le (w : str) (articles : list (list str)) :
  document_frequency w articles <= len articles.
Proof.
  unfold document_frequency, len.
  pose proof (filter_length_le (in_list w) articles). lia.
Qed.

Lemma table_of_corpus (corpus : list (list str)) (table : dict Z) :
  count_number_of_articles_with_all_words corpus = Ok table ->
  corpus <> []
  /\ table = map (fun w => (w, document_frequency w corpus))
               (first_seen (concat corpus)).
Proof.
  intros Hrun. destruct corpus as [|a corpus]; [discriminate Hrun|].
  split; [discriminate|].
  rewrite document_frequency_table in Hrun by discriminate. congruence.
Qed.

(** X12: when [count_number_of_articles_with_all_words] returns a table, the
    keys of the table are distinct, and every entry is the count of at least
    1 and of at most all the articles, for a word that some article holds. *)
Theorem table_entries_are_bounded (articles : list (list str))
  (table : dict Z) :
  count_number_of_articles_with_all_words articles = Ok table ->
  NoDup (keys table)
  /\ forall w n,
       dict_get table w = Some n ->
       1 <= n <= len articles
       /\ exists article, In article articles /\ In w article.
Proof.
  intros Hrun. destruct (table_of_corpus _ _ Hrun) as [_ ->]. split.
  - unfold keys. rewrite map_map. simpl. rewrite map_id.
    apply first_seen_NoDup.
  - intros w n Hget.
    apply (dict_get_map_inv (fun w => document_frequency w articles)) in Hget.
    destruct Hget as [Hin ->].
    apply first_seen_In, in_concat in Hin. destruct Hin as (a & Ha & Hw).
    split; [|now exists a]. split.
    + now apply document_frequency_pos with a.
    + apply document_frequency_le.
Qed.

Lemma table_entries_are_bounded_witness :
  count_number_of_articles_with_all_words
    [[pystr "a"; pystr "b"]; [pystr "b"; pystr "b"]]
  = Ok [(pystr "a", 1); (pystr "b", 2)]
  /\ 1 <= 2 <= len [[pystr "a"; pystr "b"]; [pystr "b"; pystr "b"]].
Proof.
  split; [reflexivity|].
  destruct (table_entries_are_bounded
              [[pystr "a"; pystr "b"]; [pystr "b"; pystr "b"]]
              [(pystr "a", 1); (pystr "b", 2)] eq_refl) as [_ Hbound].
  destruct (Hbound (pystr "b") 2 eq_refl) as [H _]. exact H.
Defined.

Lemma Permutation_filter {A} (f : A -> bool) (l l' : list A) :
  Permutation l l' -> Permutation (filter f l) (filter f l').
Proof.
  induction 1 as [|x l l' _ IH|x y l|l l' l'' _ IH1 _ IH2]; simpl.
  - constructor.
  - destruct (f x); [now constructor | assumption].
  - destruct (f x), (f y); try reflexivity. apply perm_swap.
  - now transitivity (filter f l').
Qed.

Lemma document_frequency_Permutation (w : str)
  (articles articles' : list (list str)) :
  Permutation articles articles' ->
  document_frequency w articles = document_frequency w articles'.
Proof.
  intros Hp. unfold document_frequency, len. f_equal.
  apply Permutation_length. now apply Permutation_filter.
Qed.

Lemma in_concat_Permutation (w : str) (articles articles' : list (list str)) :
  Permutation articles articles' ->
  In w (concat articles) -> In w (concat articles').
Proof.
  intros Hp Hin. apply in_concat in Hin. destruct Hin as (a & Ha & Hw).
  apply in_concat. exists a. split; [|assumption].
  now apply Permutation_in with articles.
Qed.

(** X13: the counts of the table do not depend on the order of the articles:
    for the same articles in another order the function returns a table that
    has the same entry, or none, for every word. *)
Theorem table_ignores_article_order (articles articles' : list (list str)) :
  Permutation articles articles' ->
  articles <> [] ->
  exists table table',
    count_number_of_articles_with_all_words articles = Ok table
    /\ count_number_of_articles_with_all_words articles' = Ok table'
    /\ forall w, dict_get table w = dict_get table' w.
Proof.
  intros Hp Hne.
  assert (Hne' : articles' <> []).
  { intros ->. apply Permutation_sym, Permutation_nil in Hp. contradiction. }
  eexists. eexists.
  split; [now apply document_frequency_table|].
  split; [now apply document_frequency_table|].
  intros w.
  destruct (in_dec (list_eq_dec Z.eq_dec) w (concat articles)) as [Hin|Hn].
  - rewrite (dict_get_map (fun w => document_frequency w articles))
      by now apply first_seen_In.
    rewrite (dict_get_map (fun w => document_frequency w articles'))
      by (apply first_seen_In; now apply in_concat_Permutation with articles).
    f_equal. now apply document_frequency_Permutation.
  - rewrite (dict_get_map_absent (fun w => document_frequency w articles))
      by now rewrite first_seen_In.
    rewrite (dict_get_map_absent (fun w => document_frequency w articles'));
      [reflexivity|].
    rewrite first_seen_In. intros Hin. apply Hn.
    apply in_concat_Permutation with articles'; [|assumption].
    now apply Permutation_sym.
Qed.

Lemma table_ignores_article_order_witness :
  exists table table',
    count_number_of_articles_with_all_words
      [[pystr "a"; pystr "b"]; [pystr "b"]] = Ok table
    /\ count_number_of_articles_with_all_words
         [[pystr "b"]; [pystr "a"; pystr "b"]] = Ok table'
    /\ dict_get table (pystr "b") = dict_get table' (pystr "b").
Proof.
  destruct (table_ignores_article_order
              [[pystr "a"; pystr "b"]; [pystr "b"]]
              [[pystr "b"]; [pystr "a"; pystr "b"]])
    as (table & table' & Hrun & Hrun' & Hsame).
  - apply perm_swap.
  - discriminate.
  - exists table, table'. repeat split; [assumption..|apply Hsame].
Defined.



(** X15: [calculate_tf_idf] returns one mapping for every article, at the
    place of the article, and the keys of the mapping are the lemmas of the
    article, each of them once; the only exception it ends in is the
    [TypeError] for the corpus without articles. *)
Theorem one_mapping_per_article (corpus : list (list str)) :
  (forall e,
      @calculate_tf_idf float _ corpus = Raise e ->
      e = TypeError /\ corpus = [])
  /\ forall i article,
       nth_error corpus i = Some article ->
       exists tf_idfs scores,
         @calculate_tf_idf float _ corpus = Ok tf_idfs
         /\ length tf_idfs = length corpus
         /\ nth_error tf_idfs i = Some scores
         /\ NoDup (keys scores)
         /\ (forall w, In w (keys scores) <-> In w article)
         /\ length scores = length (first_seen article).
Proof.
  split.
  - intros e He. destruct corpus as [|a corpus].
    + injection He as <-. auto.
    + rewrite calculate_tf_idf_ranked in He by discriminate. discriminate He.
  - intros i article Hi. destruct (nth_error_In_corpus _ _ _ Hi) as [_ Hne].
    rewrite calculate_tf_idf_ranked by assumption.
    eexists. eexists. split; [reflexivity|].
    split; [apply length_map|].
    split; [apply map_nth_error; exact Hi|].
    assert (Hperm : Permutation (first_seen article)
                      (keys (sorted (fun x : str * float => fneg (snd x))
                               (counted_scores corpus article)))).
    { rewrite <- (counted_scores_keys corpus article) at 1.
      unfold keys. apply Permutation_map, sorted_Permutation. }
    split; [|split].
    + apply (Permutation_NoDup Hperm), first_seen_NoDup.
    + intros w. rewrite <- (first_seen_In article w). split; intros Hw.
      * apply Permutation_in with (2 := Hw). now apply Permutation_sym.
      * now apply Permutation_in with (2 := Hw).
    + apply Permutation_length in Hperm. unfold keys in Hperm.
      rewrite length_map in Hperm. congruence.
Qed.

Lemma one_mapping_per_article_witness :
  exists tf_idfs scores,
    @calculate_tf_idf float _ [[pystr "a"; pystr "b"; pystr "a"]] = Ok tf_idfs
    /\ nth_error tf_idfs 0 = Some scores
    /\ length scores = 2%nat.
Proof.
  destruct (proj2 (one_mapping_per_article [[pystr "a"; pystr "b"; pystr "a"]])
              0%nat [pystr "a"; pystr "b"; pystr "a"] eq_refl)
    as (tf_idfs & scores & Hrun & _ & Hnth & _ & _ & Hlen).
  exists tf_idfs, scores. repeat split; assumption.
Defined.

(** ** Ranking and the report, further *)





Lemma sorted_of_ranked {F} `{PyFloat F} {A} (score : A -> F) (l : list A) :
  (forall x y, flt (fneg x) (fneg y) = flt y x) ->
  non_increasing score l ->
  sorted (fun e => fneg (score e)) l = l.
Proof.
  intros Hopp. unfold non_increasing.
  induction 1 as [|x l Hs IH Hx]; simpl; [reflexivity|].
  rewrite IH. destruct l as [|y l]; [reflexivity|]. simpl.
  rewrite Hopp. inversion Hx as [|? ? Hxy _]; subst. now rewrite Hxy.
Qed.

(** X17: [sort_tf_idfs] leaves alone a mapping that is ranked already, one in
    which no score is exceeded by a later one; so ranking twice gives what
    ranking once gives, for scores that are numbers. *)
Theorem ranking_is_idempotent (tf_idfs : list (dict float)) :
  Forall (fun d => NoDup (keys d)) tf_idfs ->
  (Forall (non_increasing snd) tf_idfs -> sort_tf_idfs tf_idfs = tf_idfs)
  /\ (Forall (fun d => Forall (fun e => is_number (snd e)) d) tf_idfs ->
      sort_tf_idfs (sort_tf_idfs tf_idfs) = sort_tf_idfs tf_idfs).
Proof.
  intros Hnd.
  assert (Hfix : forall ds : list (dict float),
             Forall (fun d => NoDup (keys d)) ds ->
             Forall (non_increasing snd) ds -> sort_tf_idfs ds = ds).
  { intros ds Hd Hs. rewrite sort_tf_idfs_sorted by assumption.
    rewrite <- (map_id ds) at 2. apply map_ext_in. intros d Hin.
    apply sorted_of_ranked; [exact Binary64_neg_lt|].
    rewrite Forall_forall in Hs. now apply Hs. }
  split; [now apply Hfix|].
  intros Hnum. apply Hfix.
  - rewrite sort_tf_idfs_sorted by assumption.
    apply Forall_forall. intros r Hr. apply in_map_iff in Hr.
    destruct Hr as (d & <- & Hd). apply sorted_keys_NoDup.
    rewrite Forall_forall in Hnd. now apply Hnd.
  - rewrite sort_tf_idfs_sorted by assumption.
    apply Forall_forall. intros r Hr. apply in_map_iff in Hr.
    destruct Hr as (d & <- & Hd).
    apply (sorted_non_increasing is_number Binary64_lt_asym
             Binary64_lt_negtrans Binary64_neg_lt).
    rewrite Forall_forall in Hnum. now apply Hnum.
Qed.

Lemma ranking_is_idempotent_witness :
  sort_tf_idfs
    (sort_tf_idfs [[(pystr "a", 0.25%float); (pystr "b", 0.5%float)]])
  = sort_tf_idfs [[(pystr "a", 0.25%float); (pystr "b", 0.5%float)]].
Proof.
  destruct (ranking_is_idempotent
              [[(pystr "a", 0.25%float); (pystr "b", 0.5%float)]])
    as [_ Htwice].
  - repeat constructor; simpl; intuition discriminate.
  - apply Htwice. repeat constructor.
Defined.

Lemma emitted_negative {F} (limit : Z) (article : dict F) :
  limit < 0 ->
  emitted limit article
  = firstn (length article - Z.to_nat (- limit)) article.
Proof.
  intros Hl. unfold emitted, slice_upto, len.
  destruct (Z.ltb_spec (Z.of_nat (length article)) limit) as [|_]; [lia|].
  destruct (Z.ltb_spec limit 0) as [_|]; [|lia].
  f_equal. lia.
Qed.

Lemma enumerate_from_app {A} (a b : list A) (s : nat) :
  combine (map Z.of_nat (seq s (length (a ++ b)))) (a ++ b)
  = combine (map Z.of_nat (seq s (length a))) a
    ++ combine (map Z.of_nat (seq (s + length a) (length b))) b.
Proof.
  revert s; induction a as [|x a IH]; intros s; simpl.
  - now rewrite Nat.add_0_r.
  - f_equal. rewrite IH. now rewrite Nat.add_succ_r.
Qed.

(** X18: with a negative limit [format_tf_idf] does not list nothing: the
    slice [terms[:limit]] drops the last [-limit] entries of each mapping, so
    each block is its header and the lines of all entries but those. *)
Theorem negative_limit_drops_the_last {F} `{PyRepr F}
  (tf_idfs : list (dict F)) (limit : Z) :
  limit < 0 ->
  format_tf_idf tf_idfs limit
  = concat
      (map (fun ia =>
              header (fst ia)
              ++ concat
                   (map term_line
                      (firstn (length (snd ia) - Z.to_nat (- limit))
                         (snd ia))))
         (enumerate tf_idfs)).
Proof.
  intros Hl. rewrite format_tf_idf_blocks. f_equal. apply map_ext.
  intros ia. unfold block. now rewrite emitted_negative.
Qed.

Lemma negative_limit_drops_the_last_witness :
  format_tf_idf
    [[(pystr "a", 0.5%float); (pystr "b", 0.25%float);
      (pystr "c", 0.125%float)]] (-2)
  = concat
      (map (fun ia =>
              header (fst ia)
              ++ concat
                   (map term_line
                      (firstn (length (snd ia) - Z.to_nat (- (-2)))
                         (snd ia))))
         (enumerate
            [[(pystr "a", 0.5%float); (pystr "b", 0.25%float);
              (pystr "c", 0.125%float)]])).
Proof.
  apply (negative_limit_drops_the_last
           [[(pystr "a", 0.5%float); (pystr "b", 0.25%float);
             (pystr "c", 0.125%float)]] (-2)).
  lia.
Defined.

(** X19: the report is written article by article: the report of a list of
    mappings with one more mapping at its end is the report of the list,
    then the block of that mapping under the next article number. *)
Theorem report_grows_by_blocks {F} `{PyRepr F}
  (tf_idfs : list (dict F)) (d : dict F) (limit : Z) :
  format_tf_idf (tf_idfs ++ [d]) limit
  = format_tf_idf tf_idfs limit
    ++ nl ++ pystr "Article " ++ str_of_int (len tf_idfs + 1) ++ nl
    ++ concat (map term_line (emitted limit d)).
Proof.
  rewrite !format_tf_idf_blocks. unfold enumerate.
  rewrite enumerate_from_app, map_app, concat_app. f_equal.
  simpl. rewrite app_nil_r. unfold block, header, len. simpl fst. simpl snd.
  now rewrite <- !app_assoc.
Qed.
